(** * Global identifier assignment of [import_issues.py]

    A shallow embedding of the classifier, the in-memory registry and the
    identifier assigner of class [GlobalIDAssigner], followed by the
    properties of the specification that concern them.

    Python values are rendered as follows.
    - [str] is [string]; one [ascii] stands for the code point of the same
      number (0..255), and [lower] / [strip] follow Python on that range.
    - [int] is [Z] for data fields and [nat] for the counter of
      [_count_existing], which only ever counts up from 0.
    - a [dict] used as a static table is an association list in the order of
      the literal (iteration order is observable in [_get_project_code]);
      the registry, a [dict] keyed by identifier whose iteration order is
      never observed by the modelled methods, is a [gmap].
    - the registry file and the console are an explicit environment that the
      methods doing input or output thread through an outcome monad. *)

From Stdlib Require Import Ascii String List ZArith Lia Decimal DecimalString DecimalNat.
From stdpp Require Import base option list strings gmap fin_maps sorting.

Local Open Scope list_scope.
Local Open Scope string_scope.

(* stdpp freezes [String.append] under [simpl]; the proofs below compute
   with it. *)
#[local] Arguments String.append !_ _ / : simpl nomatch.

(** ** Python string primitives *)

Module PyStr.

(** [c.lower()] for one code point below 256: the ASCII capitals and the
    Latin-1 capitals (all of 0xC0..0xDE but the multiplication sign) move
    up by 32. *)
Definition lower_char (c : ascii) : ascii :=
  let n := nat_of_ascii c in
  if (65 <=? n)%nat && (n <=? 90)%nat then ascii_of_nat (n + 32)
  else if (192 <=? n)%nat && (n <=? 222)%nat && negb (n =? 215)%nat
       then ascii_of_nat (n + 32)
  else c.

(** [s.lower()] *)
Fixpoint lower (s : string) : string :=
  match s with
  | EmptyString => EmptyString
  | String c t => String (lower_char c) (lower t)
  end.

(** The code points below 256 that [str.strip()] removes. *)
Definition is_space (c : ascii) : bool :=
  let n := nat_of_ascii c in
  ((9 <=? n)%nat && (n <=? 13)%nat) || ((28 <=? n)%nat && (n <=? 32)%nat)
  || (n =? 133)%nat || (n =? 160)%nat.

Fixpoint lstrip (s : string) : string :=
  match s with
  | EmptyString => EmptyString
  | String c t => if is_space c then lstrip t else s
  end.

Fixpoint rstrip (s : string) : string :=
  match s with
  | EmptyString => EmptyString
  | String c t =>
      match rstrip t with
      | EmptyString => if is_space c then EmptyString else String c EmptyString
      | t' => String c t'
      end
  end.

(** [s.strip()] *)
Definition strip (s : string) : string := rstrip (lstrip s).

(** [s.startswith(p)] *)
Fixpoint startswith (s p : string) : bool :=
  match p, s with
  | EmptyString, _ => true
  | String _ _, EmptyString => false
  | String b p', String a s' => if Ascii.eqb a b then startswith s' p' else false
  end.

(** [sub in s] on strings *)
Fixpoint str_in (sub s : string) : bool :=
  startswith s sub ||
  match s with
  | EmptyString => false
  | String _ s' => str_in sub s'
  end.

(** [s.split(sep)] for a one-character separator; never the empty list. *)
Fixpoint split (sep : ascii) (s : string) : list string :=
  match s with
  | EmptyString => [EmptyString]
  | String c t =>
      if Ascii.eqb c sep then EmptyString :: split sep t
      else match split sep t with
           | h :: r => String c h :: r
           | [] => [String c EmptyString]
           end
  end.

(** [sep.join(l)] *)
Fixpoint join (sep : string) (l : list string) : string :=
  match l with
  | [] => EmptyString
  | [x] => x
  | x :: r => x ++ sep ++ join sep r
  end.

(** Decimal digits of a natural number, as [str(n)] prints them. *)
Definition str_of_nat (n : nat) : string := NilEmpty.string_of_uint (Nat.to_uint n).

Fixpoint zeros (k : nat) : string :=
  match k with
  | O => EmptyString
  | S k' => String "0" (zeros k')
  end.

(** [f"{n:03d}"] for [n >= 0]: the decimal digits, filled on the left with
    ["0"] up to three characters; longer numbers are printed in full. *)
Definition format_03d (n : nat) : string :=
  let d := str_of_nat n in zeros (3 - String.length d) ++ d.

(** [s * n] *)
Fixpoint str_mul (s : string) (n : nat) : string :=
  match n with
  | O => EmptyString
  | S k => s ++ str_mul s k
  end.

(** [a <= b] on strings: lexicographic by code point. *)
Definition str_le (a b : string) : Prop := String.leb a b = true.

#[export] Instance str_le_dec : RelDecision str_le :=
  λ a b, decide (String.leb a b = true).

(** [sorted(l)] on a list of strings *)
Definition sorted (l : list string) : list string := merge_sort str_le l.

End PyStr.

(** ** Data model *)

(** The [Issue] dataclass. *)
Module Issue.
Record t : Type := mk {
  number : Z;
  title : string;
  body : string;
  labels : list string;
  milestone : option string;
  epic : option string;
  estimated_time : option string;
  is_epic : bool;
  dependencies : list string;
  global_id : option string
}.

(** [issue.global_id = g] *)
Definition set_global_id (issue : t) (g : string) : t :=
  mk (number issue) (title issue) (body issue) (labels issue) (milestone issue)
     (epic issue) (estimated_time issue) (is_epic issue) (dependencies issue)
     (Some g).
End Issue.

(** The dictionary stored under each identifier of the registry. *)
Module Entry.
Record t : Type := mk {
  global_id : string;
  project : string;
  component : string;
  local_number : Z;
  github_repo : string;
  github_number : option Z;
  title : string;
  labels : list string;
  milestone : option string;
  status : string
}.

(** [entry["github_number"] = n] *)
Definition set_github_number (e : t) (n : Z) : t :=
  mk (global_id e) (project e) (component e) (local_number e) (github_repo e)
     (Some n) (title e) (labels e) (milestone e) (status e).
End Entry.

(** ** Environment and outcomes *)

(** What a file holds when it is read back by [json.load]: the registry that
    [json.dump] wrote, or text that does not parse. *)
Inductive file_content : Type :=
| Json (r : gmap string Entry.t)
| Garbage.

Record Env : Type := mkEnv {
  files : gmap string file_content;
  stdout : list string
}.

Inductive exn : Type := JSONDecodeError.

Inductive outcome (A : Type) : Type :=
| Returned (a : A)
| Raised (e : exn).
Arguments Returned {A} a.
Arguments Raised {A} e.

Definition M (A : Type) : Type := Env → outcome (A * Env).

#[export] Instance M_ret : MRet M := λ A a env, Returned (a, env).

#[export] Instance M_bind : MBind M := λ A B k m env,
  match m env with
  | Returned (a, env') => k a env'
  | Raised e => Raised e
  end.

(** [print(line)] *)
Definition print (line : string) : M unit :=
  λ env, Returned (tt, mkEnv (files env) (stdout env ++ [line])%list).

(** [open(path, 'w')] followed by [json.dump(r, f, ...)] *)
Definition write_json (path : string) (r : gmap string Entry.t) : M unit :=
  λ env, Returned (tt, mkEnv (<[path := Json r]> (files env)) (stdout env)).

(** [d.get(k)] on a table given in literal order. *)
Fixpoint dict_get {V : Type} (d : list (string * V)) (k : string) : option V :=
  match d with
  | [] => None
  | (k', v) :: r => if String.eqb k k' then Some v else dict_get r k
  end.

(** ** Class [GlobalIDAssigner] *)

Module GlobalIDAssigner.
Import PyStr.

Definition PROJECT_CODES : list (string * string) :=
  [ ("space-colony-modelica-core", "MODELICA");
    ("modelica-rust-ffi", "FFI");
    ("modelica-rust-modbus-server", "MODBUS");
    ("godot-modelica-rust-integration", "GODOT");
    ("v-ics-le", "VICS");
    ("V-ICS", "VICS");
    ("lunaco-sim", "LUNACO");
    ("godot-colony-sim", "COLONY");
    ("modelica-godot-integration", "CORE");
    ("colony-sim-framework", "COLONY");
    ("mars-irrigation", "IRRIGATION") ].

Definition COMPONENT_MAP : list (string * string) :=
  [ ("setup", "ENV"); ("environment", "ENV"); ("installation", "ENV");
    ("poc", "POC"); ("proof-of-concept", "POC"); ("validation", "POC");
    ("build", "BUILD"); ("automation", "BUILD"); ("compilation", "BUILD");
    ("ci", "BUILD");
    ("modeling", "MODEL"); ("model", "MODEL"); ("physics", "MODEL");
    ("simulation", "MODEL");
    ("rust", "RUST"); ("ffi", "FFI"); ("bindings", "FFI");
    ("safety", "RUST"); ("concurrency", "RUST");
    ("modbus", "PROTO"); ("protocol", "PROTO"); ("networking", "NET");
    ("tcp", "NET");
    ("integration", "INTEG"); ("godot", "GODOT"); ("api", "API");
    ("config", "CONFIG"); ("configuration", "CONFIG");
    ("deployment", "DEPLOY"); ("docker", "DEPLOY");
    ("performance", "PERF"); ("optimization", "PERF");
    ("visualization", "VIZ"); ("ui", "VIZ"); ("frontend", "VIZ");
    ("backend", "BACKEND"); ("server", "BACKEND");
    ("power-systems", "POWER"); ("electrical", "POWER");
    ("life-support", "LIFE"); ("eclss", "LIFE");
    ("thermal", "THERMAL"); ("heating", "THERMAL");
    ("security", "SEC"); ("attacks", "SEC");
    ("plc", "PLC");
    ("testing", "TEST"); ("test", "TEST");
    ("documentation", "DOC"); ("docs", "DOC");
    ("data", "DATA") ].

(** *** Classifier *)

(** The partial-match loop of [_get_project_code]: the first entry, in
    table order, whose key contains the name or is contained in it. *)
Fixpoint partial_match (items : list (string * string)) (clean_name : string)
  : option string :=
  match items with
  | [] => None
  | (key, code) :: rest =>
      if str_in key clean_name || str_in clean_name key then Some code
      else partial_match rest clean_name
  end.

Definition clean_name_of (repo_name : string) : string :=
  if str_in "/" repo_name then List.last (split "/" repo_name) EmptyString
  else repo_name.

Definition _get_project_code (repo_name : string) : string :=
  let clean_name := clean_name_of repo_name in
  match dict_get PROJECT_CODES clean_name with
  | Some code => code
  | None =>
      match partial_match PROJECT_CODES clean_name with
      | Some code => code
      | None => "MISC"
      end
  end.

(** The first loop of [_get_component_code]. *)
Fixpoint first_label_match (labels : list string) : option string :=
  match labels with
  | [] => None
  | label :: rest =>
      let label_lower := strip (lower label) in
      match dict_get COMPONENT_MAP label_lower with
      | Some code => Some code
      | None => first_label_match rest
      end
  end.

(** The [if]/[elif] chain of [_get_component_code] on the joined text. *)
Definition fallback_component (label_text : string) : string :=
  if str_in "rust" label_text || str_in "ffi" label_text then "RUST"
  else if str_in "modbus" label_text || str_in "protocol" label_text then "PROTO"
  else if str_in "godot" label_text then "GODOT"
  else if str_in "model" label_text || str_in "physics" label_text then "MODEL"
  else if str_in "config" label_text then "CONFIG"
  else "MISC".

Definition _get_component_code (labels : list string) : string :=
  match first_label_match labels with
  | Some code => code
  | None => fallback_component (lower (join " " labels))
  end.


(** *** The assigner object and its methods *)

Record t : Type := mk {
  repo_name : string;
  project_code : string;
  registry_file : string;
  registry : gmap string Entry.t
}.

Definition set_registry (self : t) (r : gmap string Entry.t) : t :=
  mk (repo_name self) (project_code self) (registry_file self) r.

Definition _load_registry (path : string) : M (gmap string Entry.t) :=
  λ env, match files env !! path with
         | Some (Json r) => Returned (r, env)
         | Some Garbage => Raised JSONDecodeError
         | None => Returned (∅, env)
         end.

Definition _save_registry (self : t) : M unit :=
  write_json (registry_file self) (registry self).

Definition __init__ (repo_name registry_file : string) : M t :=
  let project_code := _get_project_code repo_name in
  registry ← _load_registry registry_file;
  let self := mk repo_name project_code registry_file registry in
  (if String.eqb project_code "MISC" then
     print ("WARNING: Repository '" ++ repo_name ++ "' not in PROJECT_CODES, using MISC");;
     print "Consider adding to PROJECT_CODES dictionary"
   else mret tt);;
  mret self.

(** The loop of [_count_existing] over the keys of a registry. *)
Definition count_keys (registry : gmap string Entry.t) (prefix : string) : nat :=
  map_fold (λ gid _ count, if startswith gid prefix then count + 1 else count)
           0 registry.

Definition _count_existing (self : t) (prefix : string) : nat :=
  count_keys (registry self) prefix.

Definition assign_id (self : t) (issue : Issue.t) : string * t * Issue.t :=
  let component := _get_component_code (Issue.labels issue) in
  let prefix := project_code self ++ "-" ++ component in
  let next_num := _count_existing self prefix + 1 in
  let global_id := prefix ++ "-" ++ format_03d next_num in
  let entry :=
    Entry.mk global_id (project_code self) component (Issue.number issue)
             (repo_name self) None (Issue.title issue) (Issue.labels issue)
             (Issue.milestone issue) "open" in
  (global_id,
   set_registry self (<[global_id := entry]> (registry self)),
   Issue.set_global_id issue global_id).

Definition update_github_number (self : t) (global_id : string) (github_number : Z)
  : M t :=
  match registry self !! global_id with
  | Some entry =>
      let self' :=
        set_registry self
          (<[global_id := Entry.set_github_number entry github_number]> (registry self)) in
      _save_registry self';; mret self'
  | None => mret self
  end.

Definition save (self : t) : M unit := _save_registry self.

(** One turn of the grouping loop of [show_summary]: the identifier joins
    the list kept under the project and component of its record. The order
    inside a list follows the iteration order of the registry; only the
    length of a list is ever printed. *)
Definition group_step (gid : string) (data : Entry.t)
  (groups : gmap string (list string)) : gmap string (list string) :=
  let key := Entry.project data ++ "-" ++ Entry.component data in
  let groups :=
    match groups !! key with
    | None => <[key := []]> groups
    | Some _ => groups
    end in
  <[key := ((groups !!! key) ++ [gid])%list]> groups.

(** The printing loop of [show_summary]. *)
Fixpoint print_groups (groups : gmap string (list string)) (keys : list string)
  : M unit :=
  match keys with
  | [] => mret tt
  | key :: rest =>
      let count := length (groups !!! key) in
      print (key ++ ": " ++ str_of_nat count ++ " issues");;
      print_groups groups rest
  end.

Definition show_summary (self : t) : M unit :=
  match size (registry self) with
  | O => print "No issues in registry yet"
  | S _ =>
      let groups := map_fold group_step ∅ (registry self) in
      print (String "010" "Global ID Summary:");;
      print (str_mul "=" 60);;
      print_groups groups (sorted (map fst (map_to_list groups)));;
      print (str_mul "=" 60)
  end.

(** The assignment loop of [GitHubImporter.run]: every item in turn through
    [assign_id], collecting the identifiers it returns. *)
Fixpoint assign_all (self : t) (issues : list Issue.t) : list string * t :=
  match issues with
  | [] => ([], self)
  | issue :: rest =>
      let '(gid, self', _) := assign_id self issue in
      let '(gids, self'') := assign_all self' rest in
      (gid :: gids, self'')
  end.

End GlobalIDAssigner.

Import PyStr GlobalIDAssigner.

(** An environment without files, and an item that has only a number and
    labels. *)
Definition empty_env : Env := mkEnv ∅ [].

Definition item (n : Z) (ls : list string) : Issue.t :=
  Issue.mk n "t" "b" ls None None None false [] None.

(** ** Vocabulary of the properties *)

(** A string without the separator of identifiers. *)
Fixpoint dashless (s : string) : bool :=
  match s with
  | EmptyString => true
  | String c t => negb (Ascii.eqb c "-") && dashless t
  end.

(** Reading a rendered counter back. *)
Definition parse_nat (s : string) : option nat :=
  option_map Nat.of_uint (NilEmpty.uint_of_string s).

(** Every project code the resolver can return. *)
Definition project_codes : list string := map snd PROJECT_CODES ++ ["MISC"].

(** Every component code the resolver can return. *)
Definition component_codes : list string :=
  map snd COMPONENT_MAP ++ ["RUST"; "PROTO"; "GODOT"; "MODEL"; "CONFIG"; "MISC"].

(** What one key adds to the count under a prefix. *)
Definition hit (k p : string) : nat := if startswith k p then 1 else 0.

(** The identifier that [assign_id] builds from its parts. *)
Definition make_id (P C : string) (n : nat) : string :=
  (P ++ "-" ++ C) ++ "-" ++ format_03d n.

(** Every key has the shape [P-C-n] with known codes, and its number does
    not exceed the count of its own prefix. *)
Definition well_numbered (r : gmap string Entry.t) : Prop :=
  ∀ k, is_Some (r !! k) →
    ∃ (P C : string) (n : nat),
      In P project_codes ∧ In C component_codes ∧
      k = make_id P C n ∧ (1 ≤ n ≤ count_keys r (P ++ "-" ++ C))%nat.

(** The two mutating entry points, as a client calls them. *)
Inductive call : Type :=
| AssignId (issue : Issue.t)
| UpdateRemoteNumber (global_id : string) (github_number : Z).

(** Any sequence of calls on one assigner, collecting what [assign_id]
    returns. *)
Fixpoint run_calls (self : t) (calls : list call) : M (list string * t) :=
  match calls with
  | [] => mret ([], self)
  | AssignId issue :: rest =>
      let '(gid, self', _) := assign_id self issue in
      '(gids, self'') ← run_calls self' rest;
      mret (gid :: gids, self'')
  | UpdateRemoteNumber g n :: rest =>
      self' ← update_github_number self g n;
      run_calls self' rest
  end.

(** The registries of a lifetime without deletion: the empty one, and what
    the two mutating methods of any assigner make of such a registry. *)
Inductive Lifetime : gmap string Entry.t → Prop :=
| Lifetime_new : Lifetime ∅
| Lifetime_assign (self : t) (issue : Issue.t) :
    Lifetime (registry self) →
    project_code self = _get_project_code (repo_name self) →
    Lifetime (registry (assign_id self issue).1.2)
| Lifetime_update (self self' : t) (g : string) (n : Z) (env env' : Env) :
    Lifetime (registry self) →
    update_github_number self g n env = Returned (self', env') →
    Lifetime (registry self').

(** The lines [__init__] prints for a repository name. *)
Definition warning_lines (repo_name : string) : list string :=
  if String.eqb (_get_project_code repo_name) "MISC" then
    ["WARNING: Repository '" ++ repo_name ++ "' not in PROJECT_CODES, using MISC";
     "Consider adding to PROJECT_CODES dictionary"]
  else [].

(** The registry [__init__] starts from, for a file that can be loaded. *)
Definition loaded (f : option file_content) : gmap string Entry.t :=
  match f with
  | Some (Json r) => r
  | _ => ∅
  end.

(** A registry file from which the record numbered 001 is missing, and the
    record it still holds. *)
Definition kept_entry : Entry.t :=
  Entry.mk "VICS-RUST-002" "VICS" "RUST" 2 "v-ics-le" (Some 17%Z) "second" ["rust"]
           None "open".

Definition gap_env : Env :=
  mkEnv {[ "global_registry.json" := Json {[ "VICS-RUST-002" := kept_entry ]} ]} [].

(** Lowercase, then trim. *)
Definition normalize (label : string) : string := strip (lower label).

Definition in_table (label : string) : bool :=
  match dict_get COMPONENT_MAP (normalize label) with
  | Some _ => true
  | None => false
  end.

(** The fixed, ordered substring heuristics: the needles of each line and the
    code the line stands for. *)
Definition heuristics : list (list string * string) :=
  [ (["rust"; "ffi"], "RUST");
    (["modbus"; "protocol"], "PROTO");
    (["godot"], "GODOT");
    (["model"; "physics"], "MODEL");
    (["config"], "CONFIG") ].

(** The first heuristic one of whose needles occurs in the text wins. *)
Definition first_heuristic (text : string) : string :=
  match find (λ h, existsb (λ needle, str_in needle text) h.1) heuristics with
  | Some h => h.2
  | None => "MISC"
  end.

(** The first label, in the given order, that the table knows decides;
    otherwise the heuristics on the labels joined by single spaces and
    lowercased; otherwise ["MISC"]. *)
Definition resolveComponentCode (labels : list string) : string :=
  match find in_table labels with
  | Some label => default "MISC" (dict_get COMPONENT_MAP (normalize label))
  | None => first_heuristic (lower (join " " labels))
  end.

(** A key lies under a prefix when it is the prefix followed by any text. *)
Definition textual_prefix (prefix gid : string) : Prop := ∃ rest, gid = prefix ++ rest.

(** [n] is the number of records held under a prefix, as the specification
    words it: the size of the set of keys that have the prefix. *)
Definition CountByPrefix (registry : gmap string Entry.t) (prefix : string) (n : nat)
  : Prop :=
  ∃ keys : list string,
    NoDup keys ∧
    (∀ gid, gid ∈ keys ↔ is_Some (registry !! gid) ∧ textual_prefix prefix gid) ∧
    length keys = n.

(** The component an item resolves to. *)
Definition component_of (issue : Issue.t) : string :=
  _get_component_code (Issue.labels issue).

(** The group [show_summary] lists a record under. *)
Definition group_key (e : Entry.t) : string :=
  Entry.project e ++ "-" ++ Entry.component e.

(** The number of records of a group. *)
Definition group_size (r : gmap string Entry.t) (key : string) : nat :=
  size (filter (λ kv, group_key kv.2 = key) r).

(** Every record names its own key, and the key is built from the record's
    project and component, both known codes. *)
Definition consistent (r : gmap string Entry.t) : Prop :=
  ∀ k e, r !! k = Some e →
    Entry.global_id e = k ∧
    In (Entry.project e) project_codes ∧ In (Entry.component e) component_codes ∧
    ∃ n : nat, k = make_id (Entry.project e) (Entry.component e) n.

(** The record [assign_id] writes for an item under an identifier. *)
Definition entry_of (self : t) (issue : Issue.t) (gid : string) : Entry.t :=
  Entry.mk gid (project_code self) (component_of issue) (Issue.number issue)
           (repo_name self) None (Issue.title issue) (Issue.labels issue)
           (Issue.milestone issue) "open".

(** One update after another on the same assigner. *)
Definition update_twice (self : t) (g1 : string) (v1 : Z) (g2 : string) (v2 : Z)
  : M t :=
  self1 ← update_github_number self g1 v1;
  update_github_number self1 g2 v2.

(** ** The model on concrete inputs *)

Section Examples.

Example project_code_exact : _get_project_code "v-ics-le" = "VICS".
Proof. reflexivity. Qed.

Example project_code_owner_stripped : _get_project_code "bondlegend4/V-ICS" = "VICS".
Proof. reflexivity. Qed.

Example project_code_partial :
  _get_project_code "bondlegend4/lunaco-sim-fork" = "LUNACO".
Proof. reflexivity. Qed.

(** An empty name occurs in every key, so the first entry of the table
    decides. *)
Example project_code_empty_segment : _get_project_code "owner/" = "MODELICA".
Proof. reflexivity. Qed.

Example component_code_first_label :
  _get_component_code [" Modbus "; "testing"] = "PROTO".
Proof. reflexivity. Qed.

Example component_code_fallback : _get_component_code ["rusty"; "nail"] = "RUST".
Proof. reflexivity. Qed.

(** The fallback text has a space between labels: no needle spans two of
    them. *)
Example component_code_no_span : _get_component_code ["ru"; "st"] = "MISC".
Proof. reflexivity. Qed.

Example strip_lower_sample : strip (lower "  Power-Systems ") = "power-systems".
Proof. reflexivity. Qed.

Example split_sample : split "/" "a/b/" = ["a"; "b"; ""].
Proof. reflexivity. Qed.

Example format_03d_samples :
  map format_03d [1; 12; 123; 1234]%nat = ["001"; "012"; "123"; "1234"].
Proof. reflexivity. Qed.

Example run_sample :
  match __init__ "v-ics-le" "global_registry.json" empty_env with
  | Returned (self, _) =>
      (assign_all self [item 1 ["modbus"; "testing"]; item 2 ["protocol"];
                        item 3 ["tcp"]; item 4 ["Protocol"]]).1
  | Raised _ => []
  end = ["VICS-PROTO-001"; "VICS-PROTO-002"; "VICS-NET-001"; "VICS-PROTO-003"].
Proof. vm_compute. reflexivity. Qed.

(** Counting is no running counter: on a registry that lost its record
    numbered 001 the same identifier is handed out again and again. *)
Example gap_repeats :
  match __init__ "v-ics-le" "global_registry.json" gap_env with
  | Returned (self, _) => (assign_all self [item 5 ["rust"]; item 6 ["rust"]]).1
  | Raised _ => []
  end = ["VICS-RUST-002"; "VICS-RUST-002"].
Proof. vm_compute. reflexivity. Qed.

Example corrupt_file_raises :
  __init__ "v-ics-le" "global_registry.json"
    (mkEnv {[ "global_registry.json" := Garbage ]} []) = Raised JSONDecodeError.
Proof. reflexivity. Qed.

End Examples.

(** ** Facts about the string primitives *)

Section StringFacts.

Lemma append_assoc (a b c : string) : (a ++ b) ++ c = a ++ (b ++ c).
Proof. induction a as [|x a IH]; simpl; [reflexivity | now rewrite IH]. Qed.

Lemma startswith_nil (s : string) : startswith s "" = true.
Proof. destruct s; reflexivity. Qed.

Lemma startswith_cons (a b : ascii) (s p : string) :
  startswith (String a s) (String b p) = true ↔ a = b ∧ startswith s p = true.
Proof.
  simpl. destruct (Ascii.eqb_spec a b) as [->|Hne]; split; intros H.
  - split; [reflexivity | exact H].
  - apply H.
  - discriminate.
  - destruct H as [H _]. contradiction.
Qed.

(** [startswith] is the textual prefix relation. *)
Lemma startswith_spec (s p : string) :
  startswith s p = true ↔ ∃ t, s = p ++ t.
Proof.
  revert s. induction p as [|b p IH]; intros s.
  - rewrite startswith_nil. split; [exists s; reflexivity | reflexivity].
  - destruct s as [|a s].
    + simpl. split; [discriminate | intros [t Ht]; discriminate].
    + rewrite startswith_cons, IH. split.
      * intros [-> [t ->]]. exists t. reflexivity.
      * intros [t Ht]. simpl in Ht. injection Ht as -> ->. eauto.
Qed.

Lemma startswith_app (p t : string) : startswith (p ++ t) p = true.
Proof. apply startswith_spec. eauto. Qed.

Lemma startswith_refl (s : string) : startswith s s = true.
Proof. apply startswith_spec. exists "". induction s; simpl; congruence. Qed.

Lemma dashless_cons (c : ascii) (s : string) :
  dashless (String c s) = true ↔ c ≠ "-"%char ∧ dashless s = true.
Proof.
  cbn [dashless]. rewrite andb_true_iff, negb_true_iff.
  destruct (Ascii.eqb_spec c "-"); intuition congruence.
Qed.

(** The first dash of an identifier and of a prefix fall at the same place. *)
Lemma startswith_split (x x' y y' : string) :
  dashless x = true → dashless x' = true →
  startswith (x ++ "-" ++ y) (x' ++ "-" ++ y') = true →
  x = x' ∧ startswith y y' = true.
Proof.
  revert x'. induction x as [|a x IH]; intros [|b x'] Hx Hx' H;
    cbn [String.append] in H; apply startswith_cons in H as [E H].
  - split; [reflexivity | exact H].
  - apply dashless_cons in Hx' as [Hb _]. congruence.
  - apply dashless_cons in Hx as [Ha _]. congruence.
  - apply dashless_cons in Hx as [_ Hx]. apply dashless_cons in Hx' as [_ Hx'].
    destruct (IH x' Hx Hx' H) as [-> Hy]. subst b. split; [reflexivity | exact Hy].
Qed.

(** A dash-free prefix of [c-n] is a prefix of [c]. *)
Lemma startswith_before_dash (c c' n : string) :
  dashless c' = true →
  startswith (c ++ "-" ++ n) c' = true → startswith c c' = true.
Proof.
  revert c'. induction c as [|a c IH]; intros [|b c'] Hc' H;
    try reflexivity; cbn [String.append] in H;
    apply startswith_cons in H as [E H]; apply dashless_cons in Hc' as [Hb Hc'].
  - congruence.
  - apply startswith_cons. split; [exact E | eauto].
Qed.

(** *** Zero-padded decimal rendering *)

Lemma zeros_digits (k : nat) (d : uint) :
  zeros k ++ NilEmpty.string_of_uint d = NilEmpty.string_of_uint (Nat.iter k D0 d).
Proof. induction k as [|k IH]; simpl; [reflexivity | now rewrite IH]. Qed.

Lemma of_uint_leading_zeros (k : nat) (d : uint) :
  Nat.of_uint (Nat.iter k D0 d) = Nat.of_uint d.
Proof. induction k as [|k IH]; simpl; [reflexivity | exact IH]. Qed.

Lemma parse_format_03d (n : nat) : parse_nat (format_03d n) = Some n.
Proof.
  unfold parse_nat, format_03d, str_of_nat.
  rewrite zeros_digits, NilEmpty.usu. simpl.
  now rewrite of_uint_leading_zeros, Unsigned.of_to.
Qed.

Lemma format_03d_inj (n m : nat) : format_03d n = format_03d m → n = m.
Proof.
  intros H. apply (f_equal parse_nat) in H.
  rewrite !parse_format_03d in H. congruence.
Qed.

Lemma zeros_length (k : nat) : String.length (zeros k) = k.
Proof. induction k; simpl; congruence. Qed.

Lemma length_append (a b : string) :
  String.length (a ++ b) = (String.length a + String.length b)%nat.
Proof. induction a; simpl; congruence. Qed.

(** The rendering is at least three characters wide, and exactly the digits
    of [n] after as many zeros as are missing. *)
Lemma format_03d_width (n : nat) : (3 ≤ String.length (format_03d n))%nat.
Proof. unfold format_03d. rewrite length_append, zeros_length. lia. Qed.

End StringFacts.

(** ** Facts about the tables and the classifier *)

Section ClassifierFacts.

Lemma dict_get_in {V : Type} (d : list (string * V)) (k : string) (v : V) :
  dict_get d k = Some v → In (k, v) d.
Proof.
  induction d as [|[k' v'] d IH]; simpl; [discriminate|].
  destruct (String.eqb_spec k k') as [->|_]; intros H.
  - injection H as ->. now left.
  - right. auto.
Qed.

Lemma dict_get_none {V : Type} (d : list (string * V)) (k : string) :
  dict_get d k = None ↔ ¬ In k (map fst d).
Proof.
  induction d as [|[k' v'] d IH]; simpl; [tauto|].
  destruct (String.eqb_spec k k') as [->|Hne]; split; intros H.
  - discriminate.
  - exfalso. apply H. now left.
  - intros [E|Hin]; [congruence | now apply IH in H].
  - apply IH. tauto.
Qed.

(** No key is written twice in a table literal, so the first hit of
    [dict_get] is the only one, as in the Python dictionary. *)
Lemma PROJECT_CODES_keys : NoDup (map fst PROJECT_CODES).
Proof. apply (bool_decide_unpack _). vm_compute. exact I. Qed.

Lemma COMPONENT_MAP_keys : NoDup (map fst COMPONENT_MAP).
Proof. apply (bool_decide_unpack _). vm_compute. exact I. Qed.

Lemma partial_match_in (items : list (string * string)) (name code : string) :
  partial_match items name = Some code → In code (map snd items).
Proof.
  induction items as [|[k c] items IH]; simpl; [discriminate|].
  destruct (str_in k name || str_in name k); intros H.
  - injection H as ->. now left.
  - right. auto.
Qed.

Lemma _get_project_code_in (repo_name : string) :
  In (_get_project_code repo_name) project_codes.
Proof.
  unfold _get_project_code, project_codes. apply in_or_app.
  destruct (dict_get _ _) as [code|] eqn:E.
  - left. apply dict_get_in in E. now apply (in_map snd) in E.
  - destruct (partial_match _ _) as [code|] eqn:E'.
    + left. eapply partial_match_in, E'.
    + right. now left.
Qed.

Lemma first_label_match_in (labels : list string) (code : string) :
  first_label_match labels = Some code → In code (map snd COMPONENT_MAP).
Proof.
  induction labels as [|l labels IH]; cbn [first_label_match]; [discriminate|].
  destruct (dict_get _ _) as [c|] eqn:E; [|exact IH].
  intros H. injection H as ->. apply dict_get_in in E. now apply (in_map snd) in E.
Qed.

Lemma _get_component_code_in (labels : list string) :
  In (_get_component_code labels) component_codes.
Proof.
  unfold _get_component_code, component_codes. apply in_or_app.
  destruct (first_label_match labels) as [code|] eqn:E.
  - left. eapply first_label_match_in, E.
  - right. unfold fallback_component.
    repeat match goal with |- context [if ?b then _ else _] => destruct b end;
      simpl; tauto.
Qed.

Lemma codes_dashless (c : string) :
  In c project_codes ∨ In c component_codes → dashless c = true.
Proof.
  assert (H : forallb dashless (project_codes ++ component_codes) = true)
    by (vm_compute; reflexivity).
  rewrite forallb_forall in H. intros Hin. apply H, in_or_app, Hin.
Qed.

(** No component code is a proper textual prefix of another one. *)
Lemma component_codes_prefix_free (c c' : string) :
  In c component_codes → In c' component_codes →
  startswith c c' = true → c = c'.
Proof.
  assert (H : forallb (λ c, forallb (λ c', implb (startswith c c') (String.eqb c c'))
                                    component_codes) component_codes = true)
    by (vm_compute; reflexivity).
  rewrite forallb_forall in H. intros Hc Hc' Hs.
  specialize (H c Hc). rewrite forallb_forall in H. specialize (H c' Hc').
  rewrite Hs in H. simpl in H. now apply String.eqb_eq.
Qed.

(** An identifier [P-C-n] lies under the prefix [P'-C'] only when the two
    prefixes are the same one. *)
Lemma prefix_hit (P C P' C' n : string) :
  In P project_codes → In P' project_codes →
  In C component_codes → In C' component_codes →
  startswith ((P ++ "-" ++ C) ++ "-" ++ n) (P' ++ "-" ++ C') = true →
  P = P' ∧ C = C'.
Proof.
  intros HP HP' HC HC' H.
  rewrite append_assoc in H. cbn [String.append] in H.
  apply startswith_split in H as [-> H]; [|apply codes_dashless; auto..].
  split; [reflexivity|].
  apply startswith_before_dash in H; [|apply codes_dashless; auto].
  now apply component_codes_prefix_free.
Qed.

End ClassifierFacts.

(** ** Facts about counting and numbering *)

Section RegistryFacts.

Implicit Types (r : gmap string Entry.t) (p k : string) (e : Entry.t).

Lemma count_keys_empty p : count_keys ∅ p = 0.
Proof. apply map_fold_empty. Qed.

Lemma count_keys_insert_fresh r k e p :
  r !! k = None → count_keys (<[k:=e]> r) p = count_keys r p + hit k p.
Proof.
  intros Hk. unfold count_keys. rewrite map_fold_insert_L; [| |exact Hk].
  - unfold hit. destruct (startswith k p); lia.
  - intros j1 j2 _ _ y _ _ _.
    destruct (startswith j1 p), (startswith j2 p); reflexivity.
Qed.

Lemma count_keys_insert_present r k e e' p :
  r !! k = Some e → count_keys (<[k:=e']> r) p = count_keys r p.
Proof.
  intros Hk. rewrite <- (insert_delete_id r k e Hk) at 2.
  rewrite <- (insert_delete_eq r k e').
  now rewrite !count_keys_insert_fresh by apply lookup_delete_eq.
Qed.

Lemma make_id_flat (P C : string) (n : nat) :
  make_id P C n = P ++ "-" ++ C ++ "-" ++ format_03d n.
Proof. unfold make_id. now rewrite append_assoc. Qed.

Lemma make_id_inj (P C : string) (n m : nat) :
  make_id P C n = make_id P C m → n = m.
Proof.
  unfold make_id. intros H.
  apply String.app_inj in H. cbn [String.append] in H.
  injection H as H. now apply format_03d_inj.
Qed.

Lemma hit_make_id (P C P' C' : string) (n : nat) :
  In P project_codes → In P' project_codes →
  In C component_codes → In C' component_codes →
  hit (make_id P C n) (P' ++ "-" ++ C') = 1 ↔ P = P' ∧ C = C'.
Proof.
  intros HP HP' HC HC'. unfold hit, make_id.
  destruct (startswith _ _) eqn:E; split; intros H; try discriminate.
  - now apply prefix_hit in E.
  - reflexivity.
  - destruct H as [-> ->]. now rewrite startswith_app in E.
Qed.

Lemma hit_make_id_same (P C : string) (n : nat) :
  hit (make_id P C n) (P ++ "-" ++ C) = 1.
Proof. unfold hit, make_id. now rewrite startswith_app. Qed.

Lemma well_numbered_empty : well_numbered ∅.
Proof. intros k [e He]. rewrite lookup_empty in He. discriminate. Qed.

(** The next identifier under a prefix is not yet a key. *)
Lemma next_id_fresh r (P C : string) :
  well_numbered r → In P project_codes → In C component_codes →
  r !! make_id P C (count_keys r (P ++ "-" ++ C) + 1) = None.
Proof.
  intros Hwf HP HC.
  destruct (r !! _) as [e|] eqn:E; [exfalso | reflexivity].
  destruct (Hwf _ (mk_is_Some _ _ E)) as (P' & C' & n & HP' & HC' & Hk & Hn).
  assert (Hpc : P' = P ∧ C' = C).
  { apply (hit_make_id P' C' P C n); auto.
    rewrite <- Hk. apply hit_make_id_same. }
  destruct Hpc as [-> ->]. apply make_id_inj in Hk. lia.
Qed.

Lemma well_numbered_insert_next r (P C : string) e :
  well_numbered r → In P project_codes → In C component_codes →
  well_numbered (<[make_id P C (count_keys r (P ++ "-" ++ C) + 1) := e]> r).
Proof.
  intros Hwf HP HC k Hk.
  pose proof (next_id_fresh r P C Hwf HP HC) as Hfresh.
  destruct (decide (k = make_id P C (count_keys r (P ++ "-" ++ C) + 1))) as [->|Hne].
  - exists P, C, (count_keys r (P ++ "-" ++ C) + 1). repeat split; auto; try lia.
    rewrite count_keys_insert_fresh, hit_make_id_same by exact Hfresh. lia.
  - rewrite lookup_insert_ne in Hk by congruence.
    destruct (Hwf k Hk) as (P' & C' & n & HP' & HC' & -> & Hn).
    exists P', C', n. repeat split; auto; try lia.
    rewrite count_keys_insert_fresh by exact Hfresh. lia.
Qed.

Lemma well_numbered_insert_present r k e e' :
  well_numbered r → r !! k = Some e → well_numbered (<[k:=e']> r).
Proof.
  intros Hwf Hk k' Hk'.
  assert (Hold : is_Some (r !! k')).
  { destruct (decide (k = k')) as [<-|Hne]; [eauto|].
    now rewrite lookup_insert_ne in Hk'. }
  destruct (Hwf k' Hold) as (P & C & n & HP & HC & -> & Hn).
  exists P, C, n. repeat split; auto; try lia.
  erewrite count_keys_insert_present by exact Hk. lia.
Qed.

End RegistryFacts.

Section AssignerFacts.

Lemma assign_id_unfold (self : t) (issue : Issue.t) :
  let C := _get_component_code (Issue.labels issue) in
  let gid := make_id (project_code self) C
               (_count_existing self (project_code self ++ "-" ++ C) + 1) in
  ∃ e, assign_id self issue =
       (gid, set_registry self (<[gid := e]> (registry self)),
        Issue.set_global_id issue gid).
Proof. eexists. reflexivity. Qed.

Lemma update_github_number_cases (self : t) (g : string) (n : Z) (env : Env) :
  match registry self !! g with
  | Some e =>
      let self' := set_registry self
                     (<[g := Entry.set_github_number e n]> (registry self)) in
      update_github_number self g n env =
      Returned (self', mkEnv (<[registry_file self := Json (registry self')]> (files env))
                             (stdout env))
  | None => update_github_number self g n env = Returned (self, env)
  end.
Proof. unfold update_github_number. destruct (registry self !! g); reflexivity. Qed.

Lemma update_github_number_keeps (self self' : t) (g : string) (n : Z) (env env' : Env) :
  update_github_number self g n env = Returned (self', env') →
  project_code self' = project_code self ∧
  repo_name self' = repo_name self ∧
  (well_numbered (registry self) → well_numbered (registry self')) ∧
  (∀ k, registry self' !! k = None ↔ registry self !! k = None).
Proof.
  pose proof (update_github_number_cases self g n env) as H.
  destruct (registry self !! g) as [e|] eqn:E; rewrite H; intros [= <- <-].
  - split; [reflexivity|]. split; [reflexivity|]. split; simpl.
    + intros Hwf. eapply well_numbered_insert_present; eauto.
    + intros k. rewrite lookup_insert_None. split; [tauto|].
      intros Hk. split; [exact Hk | congruence].
  - repeat split; auto.
Qed.

Lemma Lifetime_well_numbered (r : gmap string Entry.t) :
  Lifetime r → well_numbered r.
Proof.
  induction 1 as [|self issue _ IH Hp|self self' g n env env' _ IH Hu].
  - apply well_numbered_empty.
  - destruct (assign_id_unfold self issue) as [e ->]. simpl.
    apply well_numbered_insert_next; [exact IH | | apply _get_component_code_in].
    rewrite Hp. apply _get_project_code_in.
  - apply update_github_number_keeps in Hu as (_ & _ & Hwf & _). auto.
Qed.

(** What any sequence of calls does on a well-numbered registry. *)
Lemma run_calls_fresh (calls : list call) :
  ∀ (self : t) (env : Env),
    In (project_code self) project_codes → well_numbered (registry self) →
    ∃ gids self' env',
      run_calls self calls env = Returned (gids, self', env') ∧
      NoDup gids ∧ (∀ g, In g gids → registry self !! g = None).
Proof.
  induction calls as [|[issue|g n] calls IH]; intros self env HP Hwf.
  - exists [], self, env. repeat split; [constructor | intros g []].
  - cbn [run_calls]. destruct (assign_id_unfold self issue) as [e ->].
    cbv zeta.
    set (C := _get_component_code (Issue.labels issue)).
    set (gid := make_id _ _ _).
    pose proof (next_id_fresh (registry self) (project_code self) C Hwf HP
                  (_get_component_code_in _)) as Hfresh.
    destruct (IH (set_registry self (<[gid := e]> (registry self))) env) as
      (gids & self' & env' & Hrun & Hnd & Hnew).
    { exact HP. }
    { apply well_numbered_insert_next; auto. apply _get_component_code_in. }
    exists (gid :: gids), self', env'. split; [|split].
    + unfold mbind, M_bind. rewrite Hrun. reflexivity.
    + constructor; [|exact Hnd].
      intros Hin. apply list_elem_of_In, Hnew in Hin. simpl in Hin.
      rewrite lookup_insert_eq in Hin. discriminate.
    + intros g [<-|Hin]; [exact Hfresh|].
      apply Hnew in Hin. simpl in Hin.
      apply lookup_insert_None in Hin. tauto.
  - cbn [run_calls]. unfold mbind, M_bind.
    destruct (update_github_number self g n env) as [[self1 env1]|x] eqn:E.
    2:{ pose proof (update_github_number_cases self g n env) as Hu.
        rewrite E in Hu. destruct (registry self !! g); discriminate. }
    apply update_github_number_keeps in E as (Hp & _ & Hw & Hk).
    destruct (IH self1 env1) as (gids & self' & env' & Hrun & Hnd & Hnew).
    { now rewrite Hp. }
    { auto. }
    exists gids, self', env'. repeat split; auto.
    intros k Hin. apply Hk, Hnew, Hin.
Qed.

End AssignerFacts.

Section InitFacts.

Lemma init_cases (repo file : string) (env : Env) :
  __init__ repo file env =
  match files env !! file with
  | Some Garbage => Raised JSONDecodeError
  | f => Returned (mk repo (_get_project_code repo) file (loaded f),
                   mkEnv (files env) (stdout env ++ warning_lines repo)%list)
  end.
Proof.
  unfold __init__, warning_lines, mbind, M_bind, _load_registry.
  destruct (files env !! file) as [[r|]|]; try reflexivity;
    destruct (String.eqb _ "MISC"); unfold print, mret, M_ret; simpl;
    rewrite <- ?app_assoc, ?app_nil_r; destruct env; reflexivity.
Qed.

Lemma init_fresh (repo file : string) (env env' : Env) (self : t) :
  files env !! file = None →
  __init__ repo file env = Returned (self, env') →
  self = mk repo (_get_project_code repo) file ∅.
Proof. intros Hf. rewrite init_cases, Hf. simpl. congruence. Qed.

Lemma init_project_code (repo file : string) (env env' : Env) (self : t) :
  __init__ repo file env = Returned (self, env') →
  project_code self = _get_project_code repo ∧ repo_name self = repo.
Proof.
  rewrite init_cases. destruct (files env !! file) as [[r|]|]; intros [= <- <-];
    split; reflexivity.
Qed.

End InitFacts.

Section SequenceFacts.

(** Items of one component, assigned on a well-numbered registry, take the
    next numbers of that prefix in order. *)
Lemma assign_all_same_component (issues : list Issue.t) :
  ∀ (self : t) (c : string),
    In (project_code self) project_codes → well_numbered (registry self) →
    Forall (λ i, _get_component_code (Issue.labels i) = c) issues →
    (assign_all self issues).1 =
    map (make_id (project_code self) c)
        (seq (_count_existing self (project_code self ++ "-" ++ c) + 1) (length issues)).
Proof.
  induction issues as [|issue issues IH]; intros self c HP Hwf Hall; [reflexivity|].
  apply Forall_cons in Hall as [Hc Hall].
  cbn [assign_all]. destruct (assign_id_unfold self issue) as [e ->]. cbv zeta.
  rewrite Hc.
  set (k := _count_existing self (project_code self ++ "-" ++ c)).
  set (self' := set_registry self _).
  assert (HC : In c component_codes) by (rewrite <- Hc; apply _get_component_code_in).
  assert (Hk' : _count_existing self' (project_code self' ++ "-" ++ c) = k + 1).
  { unfold _count_existing, self'. simpl.
    rewrite count_keys_insert_fresh, hit_make_id_same; [reflexivity|].
    now apply next_id_fresh. }
  assert (Hwf' : well_numbered (registry self'))
    by now apply well_numbered_insert_next.
  specialize (IH self' c HP Hwf' Hall). rewrite Hk' in IH.
  destruct (assign_all self' issues) as [gids self''].
  cbn [fst length seq map] in IH |- *. rewrite IH.
  now rewrite (Nat.add_1_r (k + 1)).
Qed.

Lemma format_03d_three (n : nat) : n < 1000 → String.length (format_03d n) = 3.
Proof.
  assert (H : forallb (λ n, Nat.eqb (String.length (format_03d n)) 3) (seq 0 1000) = true)
    by (vm_compute; reflexivity).
  rewrite forallb_forall in H. intros Hn.
  apply Nat.eqb_eq, H, in_seq. lia.
Qed.

End SequenceFacts.

(** ** The classifier against the wording of the specification *)

Section ClassifierRefinement.

Lemma fallback_component_heuristics (text : string) :
  fallback_component text = first_heuristic text.
Proof.
  unfold fallback_component, first_heuristic, heuristics.
  cbn [find existsb fst].
  repeat match goal with |- context [str_in ?n text] => destruct (str_in n text) end;
    reflexivity.
Qed.

Lemma first_label_match_find (labels : list string) :
  first_label_match labels =
  match find in_table labels with
  | Some label => dict_get COMPONENT_MAP (normalize label)
  | None => None
  end.
Proof.
  induction labels as [|l labels IH]; cbn [first_label_match find]; [reflexivity|].
  unfold in_table at 1, normalize at 1.
  destruct (dict_get COMPONENT_MAP (strip (lower l))) eqn:E.
  - unfold normalize. now rewrite E.
  - exact IH.
Qed.

Lemma first_label_match_first (before after : list string) (l code : string) :
  Forall (λ x, dict_get COMPONENT_MAP (normalize x) = None) before →
  dict_get COMPONENT_MAP (normalize l) = Some code →
  first_label_match (before ++ l :: after)%list = Some code.
Proof.
  intros Hb Hl. induction Hb as [|x before Hx _ IH]; cbn [first_label_match app].
  - unfold normalize in Hl. now rewrite Hl.
  - unfold normalize in Hx. now rewrite Hx.
Qed.

Lemma first_label_match_none (labels : list string) :
  Forall (λ x, dict_get COMPONENT_MAP (normalize x) = None) labels →
  first_label_match labels = None.
Proof.
  induction 1 as [|x labels Hx _ IH]; cbn [first_label_match]; [reflexivity|].
  unfold normalize in Hx. now rewrite Hx.
Qed.

(** [sub in s] holds exactly when [sub] occurs somewhere inside [s]. *)
Lemma str_in_spec (sub s : string) :
  str_in sub s = true ↔ ∃ a b, s = a ++ sub ++ b.
Proof.
  split.
  - induction s as [|c s IH]; cbn [str_in]; rewrite orb_true_iff; intros [H|H].
    + apply startswith_spec in H as [t ->]. now exists "", t.
    + discriminate.
    + apply startswith_spec in H as [t ->]. now exists "", t.
    + destruct (IH H) as (a & b & ->). now exists (String c a), b.
  - intros (a & b & ->). induction a as [|c a IH].
    + cbn [String.append].
      destruct (sub ++ b) eqn:E; cbn [str_in]; rewrite <- E, startswith_app;
        reflexivity.
    + cbn [String.append str_in]. rewrite IH. apply orb_true_r.
Qed.

(** The name kept by [_get_project_code] is what follows the last slash. *)
Lemma split_last_segment (s : string) :
  ∃ owner, s = owner ++ List.last (split "/" s) "" ∧
           str_in "/" (List.last (split "/" s) "") = false ∧
           ((owner = "" ∧ ∃ h, split "/" s = [h]) ∨
            ((∃ o, owner = o ++ "/") ∧ ∃ h h2 r, split "/" s = h :: h2 :: r)).
Proof.
  induction s as [|c s (owner & Hs & Hseg & Hshape)].
  - exists "". repeat split. left. split; [reflexivity | now exists ""].
  - cbn [split]. destruct (Ascii.eqb_spec c "/") as [->|Hc].
    + exists (String "/" owner).
      assert (Hlast : List.last ("" :: split "/" s) "" = List.last (split "/" s) "").
      { destruct Hshape as [[_ [h ->]]|[_ (h & h2 & r & ->)]]; reflexivity. }
      rewrite Hlast. split; [cbn [String.append]; congruence|]. split; [exact Hseg|].
      right. split.
      * destruct Hshape as [[-> _]|[[o ->] _]]; [now exists "" | now exists (String "/" o)].
      * destruct Hshape as [[_ [h ->]]|[_ (h & h2 & r & ->)]]; eauto.
    + destruct Hshape as [[-> [h Hh]]|[[o ->] (h & h2 & r & Hh)]]; rewrite Hh in *.
      * exists "". cbn [List.last String.append] in *. subst s.
        split; [reflexivity|]. split; [|left; split; eauto].
        cbn [str_in startswith]. rewrite Hseg.
        destruct (Ascii.eqb_spec c "/"); [contradiction | reflexivity].
      * exists (String c (o ++ "/")).
        change (List.last (String c h :: h2 :: r) "") with (List.last (h :: h2 :: r) "").
        split; [cbn [String.append]; congruence|]. split; [exact Hseg|].
        right. split; [now exists (String c o) | eauto].
Qed.

Lemma clean_name_of_segment (repo : string) :
  ∃ owner, repo = owner ++ clean_name_of repo ∧
           str_in "/" (clean_name_of repo) = false ∧
           (owner = "" ∨ ∃ o, owner = o ++ "/").
Proof.
  unfold clean_name_of. destruct (str_in "/" repo) eqn:E.
  - destruct (split_last_segment repo) as (owner & H1 & H2 & H3).
    exists owner. repeat split; auto. tauto.
  - exists "". repeat split; auto.
Qed.

Lemma partial_match_first (before after : list (string * string)) (key code seg : string) :
  Forall (λ kc, str_in kc.1 seg = false ∧ str_in seg kc.1 = false) before →
  str_in key seg = true ∨ str_in seg key = true →
  partial_match (before ++ (key, code) :: after)%list seg = Some code.
Proof.
  intros Hb Hk. induction Hb as [|[k c] before [H1 H2] _ IH]; cbn [partial_match app].
  - destruct Hk as [->| ->]; [reflexivity | now rewrite orb_true_r].
  - simpl in H1, H2. now rewrite H1, H2.
Qed.

Lemma partial_match_none (items : list (string * string)) (seg : string) :
  Forall (λ kc, str_in kc.1 seg = false ∧ str_in seg kc.1 = false) items →
  partial_match items seg = None.
Proof.
  induction 1 as [|[k c] items [H1 H2] _ IH]; cbn [partial_match]; [reflexivity|].
  simpl in H1, H2. now rewrite H1, H2.
Qed.

Lemma dict_get_unique {V : Type} (d : list (string * V)) (k : string) (v : V) :
  NoDup (map fst d) → In (k, v) d → dict_get d k = Some v.
Proof.
  induction d as [|[k' v'] d IH]; cbn [dict_get map fst]; [intros _ []|].
  intros Hnd [E|Hin].
  - injection E as -> ->. now rewrite String.eqb_refl.
  - apply NoDup_cons in Hnd as [Hk' Hnd].
    destruct (String.eqb_spec k k') as [->|_]; [|auto].
    exfalso. apply Hk', list_elem_of_In. now apply (in_map fst) in Hin.
Qed.

End ClassifierRefinement.

(** ** Counting against the wording of the specification *)

Section CountFacts.

Lemma count_keys_CountByPrefix (r : gmap string Entry.t) (prefix : string) :
  CountByPrefix r prefix (count_keys r prefix).
Proof.
  unfold CountByPrefix, textual_prefix.
  induction r as [|k e r Hk (keys & Hnd & Hin & Hlen)] using map_ind.
  - exists []. rewrite count_keys_empty. split; [constructor|]. split; [|reflexivity].
    intros gid. rewrite lookup_empty, elem_of_nil. split; [tauto|].
    intros [[x Hx] _]. discriminate.
  - rewrite count_keys_insert_fresh by exact Hk. unfold hit.
    destruct (startswith k prefix) eqn:E.
    + exists (k :: keys). split; [|split; [|simpl; lia]].
      * constructor; [|exact Hnd]. rewrite Hin, Hk. intros [[x Hx] _]. discriminate.
      * intros gid. rewrite elem_of_cons, Hin, lookup_insert_is_Some.
        apply startswith_spec in E. split.
        -- intros [->|[H1 H2]]; [split; [now left | exact E] | split; [|exact H2]].
           right. split; [|exact H1]. intros ->. rewrite Hk in H1.
           destruct H1; discriminate.
        -- intros [[<-|[_ H1]] H2]; [now left | right; tauto].
    + exists keys. split; [exact Hnd|]. split; [|lia].
      intros gid. rewrite Hin, lookup_insert_is_Some. split.
      * intros [H1 H2]. split; [|exact H2]. right. split; [|exact H1].
        intros ->. rewrite Hk in H1. destruct H1; discriminate.
      * intros [[<-|[_ H1]] H2]; [|tauto].
        apply startswith_spec in H2. congruence.
Qed.

Lemma CountByPrefix_unique (r : gmap string Entry.t) (prefix : string) (n m : nat) :
  CountByPrefix r prefix n → CountByPrefix r prefix m → n = m.
Proof.
  intros (k1 & Hnd1 & Hin1 & <-) (k2 & Hnd2 & Hin2 & <-).
  apply Permutation_length, NoDup_Permutation; auto.
  intros gid. now rewrite Hin1, Hin2.
Qed.

End CountFacts.

(** ** Invariants of a deletion-free lifetime, and batches *)

Section Invariants.

Lemma assign_id_explicit (self : t) (issue : Issue.t) :
  let gid := make_id (project_code self) (component_of issue)
               (_count_existing self (project_code self ++ "-" ++ component_of issue) + 1) in
  assign_id self issue =
  (gid, set_registry self (<[gid := entry_of self issue gid]> (registry self)),
   Issue.set_global_id issue gid).
Proof. reflexivity. Qed.

Lemma update_registry_cases (self self' : t) (g : string) (n : Z) (env env' : Env) :
  update_github_number self g n env = Returned (self', env') →
  registry self' = registry self ∨
  ∃ e, registry self !! g = Some e ∧
       registry self' = <[g := Entry.set_github_number e n]> (registry self).
Proof.
  pose proof (update_github_number_cases self g n env) as H.
  destruct (registry self !! g) as [e|] eqn:E; rewrite H; intros [= <- <-].
  - right. exists e. split; reflexivity.
  - now left.
Qed.

(** An identifier determines the codes and the number it was built from. *)
Lemma make_id_parts (P C P' C' : string) (n n' : nat) :
  In P project_codes → In P' project_codes →
  In C component_codes → In C' component_codes →
  make_id P C n = make_id P' C' n' → P = P' ∧ C = C' ∧ n = n'.
Proof.
  intros HP HP' HC HC' E.
  assert (H : P = P' ∧ C = C').
  { apply (hit_make_id P C P' C' n); auto. rewrite E. apply hit_make_id_same. }
  destruct H as [-> ->]. apply make_id_inj in E. auto.
Qed.

Lemma hit_make_id_other (P C P' C' : string) (n : nat) :
  In P project_codes → In P' project_codes →
  In C component_codes → In C' component_codes →
  ¬ (P = P' ∧ C = C') → hit (make_id P C n) (P' ++ "-" ++ C') = 0.
Proof.
  intros HP HP' HC HC' Hne.
  pose proof (hit_make_id P C P' C' n HP HP' HC HC') as H.
  unfold hit in *. destruct (startswith _ _); [|reflexivity].
  exfalso. apply Hne, H. reflexivity.
Qed.

Lemma Lifetime_consistent (r : gmap string Entry.t) : Lifetime r → consistent r.
Proof.
  induction 1 as [|self issue _ IH Hp|self self' g n env env' _ IH Hu].
  - intros k e He. rewrite lookup_empty in He. discriminate.
  - rewrite assign_id_explicit. cbn [fst snd registry set_registry].
    intros k e He. apply lookup_insert_Some in He as [[<- <-]|[_ He]]; [|eauto].
    cbn. split; [reflexivity|]. split; [rewrite Hp; apply _get_project_code_in|].
    split; [apply _get_component_code_in | eauto].
  - apply update_registry_cases in Hu as [->|(e0 & Hg & ->)]; [exact IH|].
    intros k e He. apply lookup_insert_Some in He as [[<- <-]|[_ He]]; [|eauto].
    destruct (IH g e0 Hg) as (H1 & H2 & H3 & H4). cbn. auto.
Qed.

Lemma Lifetime_dense (r : gmap string Entry.t) :
  Lifetime r →
  ∀ (P C : string) (n : nat),
    In P project_codes → In C component_codes →
    (1 ≤ n ≤ count_keys r (P ++ "-" ++ C))%nat → is_Some (r !! make_id P C n).
Proof.
  induction 1 as [|self issue Hlife IH Hp|self self' g v env env' _ IH Hu];
    intros P C n HP HC Hn.
  - rewrite count_keys_empty in Hn. lia.
  - rewrite assign_id_explicit in Hn |- *.
    cbn [fst snd registry set_registry] in Hn |- *. unfold _count_existing in *.
    set (P0 := project_code self) in *. set (C0 := component_of issue) in *.
    assert (HP0 : In P0 project_codes) by (rewrite Hp; apply _get_project_code_in).
    assert (HC0 : In C0 component_codes) by apply _get_component_code_in.
    pose proof (Lifetime_well_numbered _ Hlife) as Hwf.
    rewrite count_keys_insert_fresh in Hn by now apply next_id_fresh.
    apply lookup_insert_is_Some.
    destruct (decide (P0 = P ∧ C0 = C)) as [[<- <-]|Hne].
    + rewrite hit_make_id_same in Hn.
      destruct (decide (n = count_keys (registry self) (P0 ++ "-" ++ C0) + 1)) as [->|Hn'].
      * now left.
      * right. split; [|apply IH; auto; lia].
        intros E. apply make_id_inj in E. lia.
    + rewrite hit_make_id_other in Hn by auto.
      right. split; [|apply IH; auto; lia].
      intros E. apply make_id_parts in E; auto. tauto.
  - apply update_registry_cases in Hu as [E|(e0 & Hg & E)]; rewrite E in Hn |- *.
    + apply IH; assumption.
    + rewrite (count_keys_insert_present _ _ e0) in Hn by exact Hg.
      apply lookup_insert_is_Some'. right. apply IH; assumption.
Qed.

End Invariants.

Section Batches.

Lemma assign_step_count (self : t) (issue : Issue.t) (c : string) :
  In (project_code self) project_codes → well_numbered (registry self) →
  In c component_codes →
  _count_existing (assign_id self issue).1.2 (project_code self ++ "-" ++ c) =
  (_count_existing self (project_code self ++ "-" ++ c)
   + (if decide (component_of issue = c) then 1 else 0))%nat.
Proof.
  intros HP Hwf Hc. rewrite assign_id_explicit. unfold _count_existing.
  cbn [fst snd registry set_registry].
  assert (HC0 : In (component_of issue) component_codes) by apply _get_component_code_in.
  rewrite count_keys_insert_fresh by now apply next_id_fresh.
  destruct (decide (component_of issue = c)) as [<-|Hne].
  - now rewrite hit_make_id_same.
  - rewrite hit_make_id_other; auto. tauto.
Qed.

Lemma assign_step_well_numbered (self : t) (issue : Issue.t) :
  In (project_code self) project_codes → well_numbered (registry self) →
  well_numbered (registry (assign_id self issue).1.2).
Proof.
  intros HP Hwf. rewrite assign_id_explicit. cbn [fst snd registry set_registry].
  apply well_numbered_insert_next; auto. apply _get_component_code_in.
Qed.

(** The number an item receives: the records already under its prefix, the
    earlier items of the batch with its component, and one. *)
Lemma assign_all_nth (issues : list Issue.t) :
  ∀ (self : t) (j : nat) (issue : Issue.t),
    In (project_code self) project_codes → well_numbered (registry self) →
    issues !! j = Some issue →
    (assign_all self issues).1 !! j =
    Some (make_id (project_code self) (component_of issue)
            (_count_existing self (project_code self ++ "-" ++ component_of issue) + 1
             + length (filter (λ i, component_of i = component_of issue) (take j issues)))).
Proof.
  induction issues as [|i0 issues IH]; intros self j issue HP Hwf Hj; [discriminate|].
  cbn [assign_all].
  pose proof (assign_step_count self i0 (component_of issue) HP Hwf
                (_get_component_code_in _)) as Hcount.
  pose proof (assign_step_well_numbered self i0 HP Hwf) as Hwf'.
  pose proof (assign_id_explicit self i0) as Hexp. cbv zeta in Hexp.
  destruct (assign_id self i0) as [[gid self'] i0'] eqn:E.
  cbn [fst snd] in Hcount, Hwf'.
  assert (Hp' : project_code self' = project_code self).
  { injection Hexp as _ -> _. reflexivity. }
  destruct j as [|j].
  - injection Hj as ->. injection Hexp as -> _ _.
    destruct (assign_all self' issues). cbn. now rewrite Nat.add_0_r.
  - cbn in Hj. specialize (IH self' j issue). rewrite Hp' in IH.
    specialize (IH HP Hwf' Hj). rewrite Hcount in IH.
    destruct (assign_all self' issues) as [gids self'']. cbn [fst] in IH |- *.
    change ((gid :: gids) !! S j) with (gids !! j). rewrite IH.
    cbn [take]. rewrite filter_cons.
    destruct (decide (component_of i0 = component_of issue)); cbn [length];
      do 2 f_equal; lia.
Qed.

(** A batch on a well-numbered registry keeps every record it found and every
    record it writes, each under an identifier that was free. *)
Lemma assign_all_keeps (issues : list Issue.t) :
  ∀ self : t,
    In (project_code self) project_codes → well_numbered (registry self) →
    (∀ k e, registry self !! k = Some e →
            registry (assign_all self issues).2 !! k = Some e) ∧
    size (registry (assign_all self issues).2) =
      (size (registry self) + length issues)%nat ∧
    ∀ j issue, issues !! j = Some issue →
      ∃ gid, (assign_all self issues).1 !! j = Some gid ∧
             registry self !! gid = None ∧
             registry (assign_all self issues).2 !! gid = Some (entry_of self issue gid).
Proof.
  induction issues as [|i0 issues IH]; intros self HP Hwf.
  - cbn. split; [auto|]. split; [lia|]. intros j issue Hj. discriminate.
  - cbn [assign_all].
    pose proof (assign_step_well_numbered self i0 HP Hwf) as Hwf'.
    pose proof (assign_id_explicit self i0) as Hexp. cbv zeta in Hexp.
    pose proof (next_id_fresh (registry self) (project_code self) (component_of i0)
                  Hwf HP (_get_component_code_in _)) as Hfresh.
    destruct (assign_id self i0) as [[gid self'] i0'] eqn:E. cbn [fst snd] in Hwf'.
    injection Hexp as Hgid Hself' _.
    assert (Hp' : project_code self' = project_code self) by now subst self'.
    destruct (IH self') as (Hkeep & Hsize & Hnth); [now rewrite Hp' | exact Hwf' |].
    destruct (assign_all self' issues) as [gids self'']. cbn [fst snd] in *.
    assert (Hreg : registry self' = <[gid := entry_of self i0 gid]> (registry self)).
    { subst self' gid. reflexivity. }
    assert (Hfresh' : registry self !! gid = None) by now subst gid.
    split; [|split].
    + intros k e Hk. apply Hkeep. rewrite Hreg, lookup_insert_ne; [exact Hk|].
      intros <-. congruence.
    + rewrite Hsize, Hreg, map_size_insert_None by exact Hfresh'. cbn [length]. lia.
    + intros [|j] issue Hj.
      * injection Hj as ->. exists gid. split; [reflexivity|]. split; [exact Hfresh'|].
        apply Hkeep. rewrite Hreg. apply lookup_insert_eq.
      * destruct (Hnth j issue Hj) as (g & Hg & Hnone & Hsome).
        exists g. split; [exact Hg|]. split.
        -- rewrite Hreg in Hnone. apply lookup_insert_None in Hnone. tauto.
        -- rewrite Hsome. subst self'. reflexivity.
Qed.

Lemma filter_other_component (issues : list Issue.t) (gids : list string) (c : string) :
  ¬ In c component_codes →
  filter (λ i, component_of i = c) issues = [] ∧
  filter (λ p : Issue.t * string, component_of p.1 = c) (zip issues gids) = [].
Proof.
  intros Hc.
  assert (Hne : ∀ i, component_of i ≠ c).
  { intros i <-. apply Hc, _get_component_code_in. }
  split.
  - induction issues as [|i issues IH]; [reflexivity|].
    rewrite filter_cons, decide_False by apply Hne. exact IH.
  - revert gids. induction issues as [|i issues IH]; intros [|g gids]; try reflexivity.
    cbn [zip zip_with]. rewrite filter_cons, decide_False by apply Hne. apply IH.
Qed.

(** The identifiers a batch gives to the items of one component, read off in
    assignment order, carry the numbers that follow the records already under
    that prefix. *)
Lemma assign_all_filter (issues : list Issue.t) :
  ∀ (self : t) (c : string),
    In (project_code self) project_codes → well_numbered (registry self) →
    In c component_codes →
    map snd (filter (λ p : Issue.t * string, component_of p.1 = c)
                    (zip issues (assign_all self issues).1)) =
    map (make_id (project_code self) c)
        (seq (_count_existing self (project_code self ++ "-" ++ c) + 1)
             (length (filter (λ i, component_of i = c) issues))).
Proof.
  induction issues as [|i0 issues IH]; intros self c HP Hwf Hc; [reflexivity|].
  cbn [assign_all].
  pose proof (assign_step_count self i0 c HP Hwf Hc) as Hcount.
  pose proof (assign_step_well_numbered self i0 HP Hwf) as Hwf'.
  pose proof (assign_id_explicit self i0) as Hexp. cbv zeta in Hexp.
  destruct (assign_id self i0) as [[gid self'] i0'] eqn:E.
  cbn [fst snd] in Hcount, Hwf'.
  injection Hexp as Hgid Hself' _.
  assert (Hp' : project_code self' = project_code self) by now subst self'.
  specialize (IH self' c). rewrite Hp' in IH. specialize (IH HP Hwf' Hc).
  rewrite Hcount in IH.
  destruct (assign_all self' issues) as [gids self'']. cbn [fst] in IH |- *.
  cbn [zip zip_with]. rewrite !filter_cons. cbn [fst].
  destruct (decide (component_of i0 = c)) as [Heq|Hne].
  - cbn [map snd length seq]. rewrite IH, Hgid, Heq.
    now rewrite (Nat.add_1_r (_ + 1)).
  - rewrite IH. now rewrite Nat.add_0_r.
Qed.

End Batches.

(** ** The claims *)

(** C1 (prefix monotonicity). An assigner is constructed over the registry
    of a deletion-free lifetime and assigns a batch of items of any mix of
    components. For every component [c], the identifiers given to the items
    that resolve to [c], read off in assignment order, are [P-c-NNN] with
    consecutive numbers that follow the records already under the prefix
    [P-c], where [P] is the project code of the repository; items of other
    components do not advance that counter. When no registry file exists, so
    that the registry's lifetime starts with this assigner, the numbers are
    exactly 1, 2, ... up to the number of items of that component; in
    particular a batch whose items all resolve to [c] receives [P-c-001],
    [P-c-002], ... in order. Each number is rendered by [format_03d], which
    reads back as the number itself and is exactly three characters wide up
    to 999. *)
Theorem C1_prefix_monotonicity
  (repo file : string) (env env' : Env) (self : t)
  (issues : list Issue.t) (c : string) :
  __init__ repo file env = Returned (self, env') →
  Lifetime (registry self) →
  let P := _get_project_code repo in
  let rendered := λ n, P ++ "-" ++ c ++ "-" ++ format_03d n in
  let ids_of_c :=
    map snd (filter (λ p : Issue.t * string, _get_component_code (Issue.labels p.1) = c)
                    (zip issues (assign_all self issues).1)) in
  let N := length (filter (λ i, _get_component_code (Issue.labels i) = c) issues) in
  ids_of_c = map rendered (seq (_count_existing self (P ++ "-" ++ c) + 1) N) ∧
  (files env !! file = None → ids_of_c = map rendered (seq 1 N)) ∧
  (files env !! file = None →
   Forall (λ i, _get_component_code (Issue.labels i) = c) issues →
   (assign_all self issues).1 = map rendered (seq 1 (length issues))) ∧
  ∀ n : nat, (1 ≤ n)%nat →
       parse_nat (format_03d n) = Some n ∧
       ((n ≤ 999)%nat → String.length (format_03d n) = 3%nat).
Proof.
  intros Hinit Hlife. cbv zeta.
  pose proof Hinit as Hinit'. apply init_project_code in Hinit' as [Hp _].
  assert (HP : In (project_code self) project_codes)
    by (rewrite Hp; apply _get_project_code_in).
  pose proof (Lifetime_well_numbered _ Hlife) as Hwf.
  assert (Hgen :
    map snd (filter (λ p : Issue.t * string, _get_component_code (Issue.labels p.1) = c)
                    (zip issues (assign_all self issues).1)) =
    map (λ n, _get_project_code repo ++ "-" ++ c ++ "-" ++ format_03d n)
        (seq (_count_existing self (_get_project_code repo ++ "-" ++ c) + 1)
             (length (filter (λ i, _get_component_code (Issue.labels i) = c) issues)))).
  { destruct (decide (c ∈ component_codes)) as [Hc|Hc].
    - apply list_elem_of_In in Hc.
      pose proof (assign_all_filter issues self c HP Hwf Hc) as H.
      unfold component_of in H. rewrite H, Hp.
      apply map_ext. intros n. apply make_id_flat.
    - rewrite list_elem_of_In in Hc.
      destruct (filter_other_component issues (assign_all self issues).1 c Hc) as [H1 H2].
      unfold component_of in H1, H2. rewrite H1, H2. reflexivity. }
  split; [exact Hgen|]. split; [|split].
  - intros Hfile. rewrite Hgen.
    apply init_fresh in Hinit; [subst self | exact Hfile].
    unfold _count_existing. cbn [registry]. now rewrite count_keys_empty.
  - intros Hfile Hall.
    apply init_fresh in Hinit; [subst self | exact Hfile].
    rewrite (assign_all_same_component issues _ c); cbn [project_code registry];
      [| apply _get_project_code_in | apply well_numbered_empty | exact Hall].
    unfold _count_existing. cbn [registry]. rewrite count_keys_empty. cbn [Nat.add].
    apply map_ext. intros n. apply make_id_flat.
  - intros n _. split; [apply parse_format_03d|].
    intros Hn. apply format_03d_three. lia.
Qed.

Lemma C1_witness :
  map snd (filter (λ p : Issue.t * string, _get_component_code (Issue.labels p.1) = "RUST")
             (zip [item 1 ["rust"]; item 2 ["tcp"]; item 3 ["Safety "]; item 4 []]
                  (assign_all (mk "v-ics-le" "VICS" "global_registry.json" ∅)
                     [item 1 ["rust"]; item 2 ["tcp"]; item 3 ["Safety "]; item 4 []]).1))
  = ["VICS-RUST-001"; "VICS-RUST-002"] ∧
  (assign_all (mk "v-ics-le" "VICS" "global_registry.json" ∅)
              [item 1 ["rust"]; item 3 ["Safety "]]).1
  = ["VICS-RUST-001"; "VICS-RUST-002"].
Proof.
  split.
  - refine (proj1 (proj2 (C1_prefix_monotonicity "v-ics-le" "global_registry.json"
                     empty_env empty_env _
                     [item 1 ["rust"]; item 2 ["tcp"]; item 3 ["Safety "]; item 4 []]
                     "RUST" _ _)) _).
    + reflexivity.
    + exact Lifetime_new.
    + reflexivity.
  - refine (proj1 (proj2 (proj2 (C1_prefix_monotonicity "v-ics-le" "global_registry.json"
                     empty_env empty_env _
                     [item 1 ["rust"]; item 3 ["Safety "]] "RUST" _ _))) _ _).
    + reflexivity.
    + exact Lifetime_new.
    + reflexivity.
    + repeat constructor.
Defined.

(** C2 (uniqueness). An assigner is constructed by [__init__] over the
    registry of a deletion-free lifetime (empty, or built by earlier
    [assign_id] and [update_github_number] calls of any assigner). Then every
    sequence of calls runs to completion, and the identifiers its [assign_id]
    calls return are pairwise distinct. *)
Theorem C2_uniqueness
  (repo file : string) (env env1 : Env) (self : t) (calls : list call) :
  __init__ repo file env = Returned (self, env1) →
  Lifetime (registry self) →
  ∃ gids self' env',
    run_calls self calls env1 = Returned (gids, self', env') ∧
    NoDup gids ∧
    ∀ g, In g gids → registry self !! g = None.
Proof.
  intros Hinit Hlife.
  apply init_project_code in Hinit as [Hp _].
  destruct (run_calls_fresh calls self env1) as (gids & self' & env' & Hrun & Hnd & Hnew).
  - rewrite Hp. apply _get_project_code_in.
  - now apply Lifetime_well_numbered.
  - eauto 6.
Qed.

Lemma C2_witness :
  ∃ gids self' env',
    run_calls (mk "v-ics-le" "VICS" "global_registry.json" ∅)
      [AssignId (Issue.mk 1 "a" "" ["rust"] None None None false [] None);
       UpdateRemoteNumber "VICS-RUST-001" 41;
       AssignId (Issue.mk 2 "b" "" ["tcp"] None None None false [] None);
       AssignId (Issue.mk 3 "c" "" ["rust"] None None None false [] None)]
      (mkEnv ∅ []) = Returned (gids, self', env') ∧
    NoDup gids ∧
    ∀ g, In g gids →
         registry (mk "v-ics-le" "VICS" "global_registry.json" ∅) !! g = None.
Proof.
  refine (C2_uniqueness "v-ics-le" "global_registry.json" (mkEnv ∅ []) (mkEnv ∅ [])
            _ _ _ _).
  - reflexivity.
  - exact Lifetime_new.
Defined.

(** C3, refuted as stated. Loaded from a registry that holds only
    [VICS-RUST-002], the assigner computes that same key for the next item
    labelled [rust]; the call returns it and the record stored under the key
    is no longer the one that was there. *)
Lemma C3_counterexample :
  match __init__ "v-ics-le" "global_registry.json" gap_env with
  | Returned (self, _) =>
      let '(gid, self', _) :=
        assign_id self (Issue.mk 9 "ninth" "" ["rust"] None None None false [] None) in
      gid = "VICS-RUST-002" ∧
      registry self !! gid = Some kept_entry ∧
      registry self' !! gid ≠ Some kept_entry
  | Raised _ => False
  end.
Proof. vm_compute. repeat split; congruence. Qed.

(** C3, amended. The insertion of [assign_id] is an unguarded keyed store:
    for every assigner state and item it returns, the registry afterwards is
    the registry before with the new record written under the returned key
    (replacing whatever was there), and every other key is untouched. On the
    registry of a deletion-free lifetime the returned key is not present
    beforehand, so no record is replaced there. *)
Theorem C3_insert_is_unguarded_store (self : t) (issue : Issue.t) :
  let gid := (assign_id self issue).1.1 in
  let self' := (assign_id self issue).1.2 in
  let entry :=
    Entry.mk gid (project_code self) (_get_component_code (Issue.labels issue))
             (Issue.number issue) (repo_name self) None (Issue.title issue)
             (Issue.labels issue) (Issue.milestone issue) "open" in
  registry self' !! gid = Some entry ∧
  (∀ k, k ≠ gid → registry self' !! k = registry self !! k) ∧
  (Lifetime (registry self) →
   project_code self = _get_project_code (repo_name self) →
   registry self !! gid = None).
Proof.
  cbv zeta. split; [|split].
  - unfold assign_id. simpl. now rewrite lookup_insert_eq.
  - intros k Hk. unfold assign_id. simpl. now rewrite lookup_insert_ne.
  - intros Hlife Hp. apply next_id_fresh.
    + now apply Lifetime_well_numbered.
    + rewrite Hp. apply _get_project_code_in.
    + apply _get_component_code_in.
Qed.

Lemma C3_witness :
  registry (mk "v-ics-le" "VICS" "global_registry.json" ∅)
    !! (assign_id (mk "v-ics-le" "VICS" "global_registry.json" ∅)
          (Issue.mk 9 "ninth" "" ["rust"] None None None false [] None)).1.1 = None.
Proof.
  refine (proj2 (proj2 (C3_insert_is_unguarded_store
            (mk "v-ics-le" "VICS" "global_registry.json" ∅)
            (Issue.mk 9 "ninth" "" ["rust"] None None None false [] None))) _ _).
  - exact Lifetime_new.
  - reflexivity.
Defined.

(** C4, refuted as stated. On an assigner whose registry is empty, an update
    for an identifier that is not there returns normally, with the assigner
    and the environment as they were: no error of any kind is raised. *)
Lemma C4_counterexample :
  update_github_number (mk "v-ics-le" "VICS" "global_registry.json" ∅)
    "VICS-RUST-001" 17 (mkEnv ∅ [])
  = Returned (mk "v-ics-le" "VICS" "global_registry.json" ∅, mkEnv ∅ []) ∧
  ¬ ∃ e, update_github_number (mk "v-ics-le" "VICS" "global_registry.json" ∅)
           "VICS-RUST-001" 17 (mkEnv ∅ []) = Raised e.
Proof. split; [reflexivity | intros [e He]; discriminate He]. Qed.

(** C4, amended. When the identifier is absent, [update_github_number] is a
    silent no-op: it returns without error and changes neither the registry
    nor the file nor the console. When the identifier is present it sets the
    [github_number] field of that record, leaves the record's other fields
    and all other records alone, and writes the whole updated registry to the
    registry file. *)
Theorem C4_update_github_number (self : t) (g : string) (n : Z) (env : Env) :
  (registry self !! g = None →
   update_github_number self g n env = Returned (self, env)) ∧
  (∀ entry, registry self !! g = Some entry →
     ∃ self' env',
       update_github_number self g n env = Returned (self', env') ∧
       registry self' = <[g := Entry.set_github_number entry n]> (registry self) ∧
       Entry.github_number (Entry.set_github_number entry n) = Some n ∧
       files env' !! registry_file self = Some (Json (registry self')) ∧
       (∀ path, path ≠ registry_file self → files env' !! path = files env !! path) ∧
       stdout env' = stdout env).
Proof.
  pose proof (update_github_number_cases self g n env) as H. split.
  - intros Hg. now rewrite Hg in H.
  - intros entry Hg. rewrite Hg in H. cbv zeta in H.
    eexists _, _. split; [exact H|]. simpl. repeat split.
    + now rewrite lookup_insert_eq.
    + intros path Hp. now rewrite lookup_insert_ne.
Qed.

Lemma C4_witness :
  update_github_number (mk "v-ics-le" "VICS" "global_registry.json" ∅)
    "VICS-RUST-001" 17 (mkEnv ∅ [])
  = Returned (mk "v-ics-le" "VICS" "global_registry.json" ∅, mkEnv ∅ []) ∧
  ∃ self' env',
    update_github_number
      (mk "v-ics-le" "VICS" "global_registry.json" {[ "VICS-RUST-002" := kept_entry ]})
      "VICS-RUST-002" 23 gap_env = Returned (self', env') ∧
    registry self' !! "VICS-RUST-002" =
      Some (Entry.set_github_number kept_entry 23).
Proof.
  split.
  - refine (proj1 (C4_update_github_number _ _ _ _) _). reflexivity.
  - destruct (proj2 (C4_update_github_number
                (mk "v-ics-le" "VICS" "global_registry.json"
                    {[ "VICS-RUST-002" := kept_entry ]})
                "VICS-RUST-002" 23 gap_env) kept_entry)
      as (self' & env' & Hrun & Hreg & _).
    + reflexivity.
    + exists self', env'. split; [exact Hrun|].
      rewrite Hreg. apply lookup_insert_eq.
Defined.

(** C5 (component code resolution). [_get_component_code] agrees on every
    label sequence with the resolver of the specification: labels are walked
    in the given order, each lowercased and trimmed, and the first one found
    in the label table decides; [["rust"; "networking"]] therefore gives the
    code of ["rust"], not that of ["networking"]. When no label is in the
    table, the labels joined by single spaces and lowercased are tested
    against the ordered substring heuristics, and ["MISC"] is the result when
    none of them matches. *)
Theorem C5_component_code (labels : list string) :
  _get_component_code labels = resolveComponentCode labels ∧
  (∀ before l after code,
     labels = (before ++ l :: after)%list →
     Forall (λ x, dict_get COMPONENT_MAP (strip (lower x)) = None) before →
     dict_get COMPONENT_MAP (strip (lower l)) = Some code →
     _get_component_code labels = code) ∧
  (Forall (λ x, dict_get COMPONENT_MAP (strip (lower x)) = None) labels →
   _get_component_code labels = first_heuristic (lower (join " " labels)) ∧
   (Forall (λ h, Forall (λ needle, str_in needle (lower (join " " labels)) = false) h.1)
           heuristics →
    _get_component_code labels = "MISC")) ∧
  (dict_get COMPONENT_MAP "rust" = Some "RUST" ∧
   dict_get COMPONENT_MAP "networking" = Some "NET" ∧
   _get_component_code ["rust"; "networking"] = "RUST").
Proof.
  split; [|split; [|split]].
  - unfold _get_component_code, resolveComponentCode.
    rewrite first_label_match_find.
    destruct (find in_table labels) as [l|] eqn:E.
    + apply find_some in E as [_ E]. unfold in_table in E.
      destruct (dict_get COMPONENT_MAP (normalize l)); [reflexivity | discriminate].
    + apply fallback_component_heuristics.
  - intros before l after code -> Hb Hl. unfold _get_component_code.
    now rewrite (first_label_match_first before after l code).
  - intros Hnone. unfold _get_component_code.
    rewrite (first_label_match_none labels Hnone), fallback_component_heuristics.
    split; [reflexivity|].
    intros Hh. unfold first_heuristic.
    destruct (find _ heuristics) as [h|] eqn:E; [exfalso | reflexivity].
    apply find_some in E as [Hin E].
    rewrite Forall_forall in Hh. apply list_elem_of_In, Hh in Hin.
    apply existsb_exists in E as (needle & Hn & E).
    rewrite Forall_forall in Hin. apply list_elem_of_In, Hin in Hn. congruence.
  - repeat split; reflexivity.
Qed.

Lemma C5_witness :
  _get_component_code ["Urgent"; " Modbus "; "testing"] = "PROTO" ∧
  _get_component_code ["rusty"; "nail"] = "RUST" ∧
  _get_component_code ["urgent"; "later"] = "MISC".
Proof.
  split; [|split].
  - refine (proj1 (proj2 (C5_component_code ["Urgent"; " Modbus "; "testing"]))
              ["Urgent"] " Modbus " ["testing"] "PROTO" _ _ _).
    + reflexivity.
    + repeat constructor.
    + reflexivity.
  - refine (proj1 (proj1 (proj2 (proj2 (C5_component_code ["rusty"; "nail"]))) _)).
    repeat constructor.
  - refine (proj2 (proj1 (proj2 (proj2 (C5_component_code ["urgent"; "later"]))) _) _).
    + repeat constructor.
    + repeat constructor.
Defined.

(** C6 (project code resolution). For every repository identifier the name
    looked up is the text after the last slash (the whole identifier when it
    has none). A table entry keyed by exactly that name gives the code;
    otherwise the first entry, in the order of the table, whose key occurs in
    the name or in whose key the name occurs gives it ([str_in a b] holds
    exactly when [a] occurs inside [b]); otherwise the code is ["MISC"]. The resolver is a total function, and [__init__] returns for
    every registry file that is missing or loadable, printing the two warning
    lines exactly when the code is ["MISC"]. ["totally-unknown-repo"] yields
    ["MISC"]. *)
Theorem C6_project_code (repo : string) :
  let seg := clean_name_of repo in
  (∃ owner, repo = owner ++ seg ∧ str_in "/" seg = false ∧
            (owner = "" ∨ ∃ o, owner = o ++ "/")) ∧
  (∀ code, In (seg, code) PROJECT_CODES → _get_project_code repo = code) ∧
  (¬ In seg (map fst PROJECT_CODES) →
   ∀ before key code after,
     PROJECT_CODES = (before ++ (key, code) :: after)%list →
     Forall (λ kc, str_in kc.1 seg = false ∧ str_in seg kc.1 = false) before →
     str_in key seg = true ∨ str_in seg key = true →
     _get_project_code repo = code) ∧
  (¬ In seg (map fst PROJECT_CODES) →
   Forall (λ kc, str_in kc.1 seg = false ∧ str_in seg kc.1 = false) PROJECT_CODES →
   _get_project_code repo = "MISC") ∧
  (∀ file env, files env !! file ≠ Some Garbage →
     ∃ self env',
       __init__ repo file env = Returned (self, env') ∧
       project_code self = _get_project_code repo ∧
       files env' = files env ∧
       (_get_project_code repo = "MISC" →
        stdout env' =
          (stdout env ++
           [("WARNING: Repository '" ++ repo ++ "' not in PROJECT_CODES, using MISC")%string;
            "Consider adding to PROJECT_CODES dictionary"])%list) ∧
       (_get_project_code repo ≠ "MISC" → stdout env' = stdout env)) ∧
  (∀ a b, str_in a b = true ↔ ∃ x y, b = x ++ a ++ y) ∧
  _get_project_code "totally-unknown-repo" = "MISC".
Proof.
  cbv zeta. split; [apply clean_name_of_segment|].
  split; [|split; [|split; [|split; [|split; [apply str_in_spec|]]]]].
  - intros code Hin. unfold _get_project_code.
    now rewrite (dict_get_unique _ _ _ PROJECT_CODES_keys Hin).
  - intros Hno before key code after Htab Hb Hk. unfold _get_project_code.
    apply dict_get_none in Hno. rewrite Hno, Htab.
    now rewrite (partial_match_first before after key code).
  - intros Hno Hall. unfold _get_project_code.
    apply dict_get_none in Hno. now rewrite Hno, partial_match_none.
  - intros file env Hfile. rewrite init_cases.
    destruct (files env !! file) as [[r|]|] eqn:E; [|contradiction|];
      eexists _, _; (split; [reflexivity|]); simpl; repeat split;
      unfold warning_lines;
      try (intros ->; reflexivity);
      try (intros Hne; apply String.eqb_neq in Hne; rewrite Hne; apply app_nil_r).
  - reflexivity.
Qed.

Lemma C6_witness :
  _get_project_code "bondlegend4/V-ICS" = "VICS" ∧
  _get_project_code "bondlegend4/lunaco-sim-fork" = "LUNACO" ∧
  _get_project_code "totally-unknown-repo" = "MISC" ∧
  ∃ self env',
    __init__ "totally-unknown-repo" "global_registry.json" (mkEnv ∅ [])
      = Returned (self, env') ∧
    stdout env' =
      ["WARNING: Repository 'totally-unknown-repo' not in PROJECT_CODES, using MISC";
       "Consider adding to PROJECT_CODES dictionary"].
Proof.
  split; [|split; [|split]].
  - refine (proj1 (proj2 (C6_project_code "bondlegend4/V-ICS")) "VICS" _).
    vm_compute. tauto.
  - refine (proj1 (proj2 (proj2 (C6_project_code "bondlegend4/lunaco-sim-fork"))) _
              (firstn 6 PROJECT_CODES) "lunaco-sim" "LUNACO" (skipn 7 PROJECT_CODES) _ _ _).
    + vm_compute. intuition discriminate.
    + reflexivity.
    + vm_compute. repeat constructor.
    + left. reflexivity.
  - refine (proj1 (proj2 (proj2 (proj2 (C6_project_code "totally-unknown-repo")))) _ _).
    + vm_compute. intuition discriminate.
    + vm_compute. repeat constructor.
  - destruct (proj1 (proj2 (proj2 (proj2 (proj2
                (C6_project_code "totally-unknown-repo")))))
                "global_registry.json" (mkEnv ∅ []))
      as (self & env' & Hinit & _ & _ & Hwarn & _).
    + vm_compute. discriminate.
    + exists self, env'. split; [exact Hinit|]. apply Hwarn. reflexivity.
Defined.

(** C7 (scenario). An assigner for ["v-ics-le"] is constructed where no
    registry file exists. Its project code is ["VICS"]; a first item labelled
    [["modbus"; "testing"]] resolves to component ["PROTO"] and is given
    ["VICS-PROTO-001"]; a second item labelled [["protocol"]] is then given
    ["VICS-PROTO-002"]. *)
Theorem C7_scenario (file : string) (env : Env) (first second : Issue.t) :
  files env !! file = None →
  Issue.labels first = ["modbus"; "testing"] →
  Issue.labels second = ["protocol"] →
  ∃ self env',
    __init__ "v-ics-le" file env = Returned (self, env') ∧
    registry self = ∅ ∧
    project_code self = "VICS" ∧
    _get_component_code (Issue.labels first) = "PROTO" ∧
    (assign_id self first).1.1 = "VICS-PROTO-001" ∧
    Issue.global_id (assign_id self first).2 = Some "VICS-PROTO-001" ∧
    (assign_id (assign_id self first).1.2 second).1.1 = "VICS-PROTO-002".
Proof.
  intros Hfile H1 H2. rewrite init_cases, Hfile.
  eexists _, _. split; [reflexivity|].
  destruct first, second. simpl in H1, H2. subst.
  vm_compute. repeat split.
Qed.

Lemma C7_witness :
  (assign_id (assign_id (mk "v-ics-le" "VICS" "global_registry.json" ∅)
                (Issue.mk 1 "a" "" ["modbus"; "testing"] None None None false [] None)).1.2
     (Issue.mk 2 "b" "" ["protocol"] None None None false [] None)).1.1
  = "VICS-PROTO-002".
Proof.
  destruct (C7_scenario "global_registry.json" (mkEnv ∅ [])
              (Issue.mk 1 "a" "" ["modbus"; "testing"] None None None false [] None)
              (Issue.mk 2 "b" "" ["protocol"] None None None false [] None))
    as (self & env' & Hinit & _ & _ & _ & _ & _ & H2).
  - reflexivity.
  - reflexivity.
  - reflexivity.
  - injection Hinit as <- _. exact H2.
Defined.

(** C8 (counting by prefix). [_count_existing] returns exactly the number of
    records of the registry whose key is the prefix followed by any text
    (which is what [startswith] tests), with no regard for where the dashes
    fall: a record keyed ["VICS-RUST2-001"] is one of those counted under
    ["VICS-RUST"], and the count is one less without it. *)
Theorem C8_count_by_prefix (self : t) (prefix : string) :
  (∀ n, CountByPrefix (registry self) prefix n ↔ n = _count_existing self prefix) ∧
  (∀ gid, startswith gid prefix = true ↔ textual_prefix prefix gid) ∧
  (∀ e, registry self !! "VICS-RUST2-001" = Some e →
     _count_existing self "VICS-RUST" =
     (_count_existing (set_registry self (delete "VICS-RUST2-001" (registry self)))
                      "VICS-RUST" + 1)%nat).
Proof.
  split; [|split; [intros gid; apply startswith_spec|]].
  - intros n. split.
    + intros Hn. eapply CountByPrefix_unique; [exact Hn|].
      apply count_keys_CountByPrefix.
    + intros ->. apply count_keys_CountByPrefix.
  - intros e He. unfold _count_existing. simpl.
    rewrite <- (insert_delete_id (registry self) "VICS-RUST2-001" e He) at 1.
    now rewrite count_keys_insert_fresh by apply lookup_delete_eq.
Qed.

Lemma C8_witness :
  _count_existing
    (mk "v-ics-le" "VICS" "global_registry.json"
        {[ "VICS-RUST2-001" := kept_entry; "VICS-RUST-002" := kept_entry;
           "VICS-NET-001" := kept_entry ]})
    "VICS-RUST" = 2%nat.
Proof.
  refine (eq_trans (proj2 (proj2 (C8_count_by_prefix _ "VICS-RUST")) kept_entry _) _).
  - reflexivity.
  - vm_compute. reflexivity.
Defined.

(** C9 (remote update idempotence). When the registry holds a record for
    [g], a first [update_github_number g v] returns, and a second one with the
    same value returns as well and leaves the assigner, the registry file and
    the console exactly as the first call left them. *)
Theorem C9_update_idempotent
  (self : t) (g : string) (v : Z) (env : Env) (entry : Entry.t) :
  registry self !! g = Some entry →
  ∃ self1 env1,
    update_github_number self g v env = Returned (self1, env1) ∧
    update_github_number self1 g v env1 = Returned (self1, env1).
Proof.
  intros Hg.
  pose proof (update_github_number_cases self g v env) as H1.
  rewrite Hg in H1. cbv zeta in H1.
  set (r1 := <[g := Entry.set_github_number entry v]> (registry self)) in *.
  set (self1 := set_registry self r1) in *.
  set (env1 := mkEnv _ _) in H1.
  exists self1, env1. split; [exact H1|].
  pose proof (update_github_number_cases self1 g v env1) as H2.
  assert (Hl : registry self1 !! g = Some (Entry.set_github_number entry v))
    by apply lookup_insert_eq.
  rewrite Hl in H2. cbv zeta in H2. rewrite H2.
  assert (Hr : <[g := Entry.set_github_number (Entry.set_github_number entry v) v]>
                 (registry self1) = r1)
    by apply insert_insert_eq.
  rewrite Hr. unfold env1, self1, set_registry. simpl.
  now rewrite insert_insert_eq.
Qed.

Lemma C9_witness :
  ∃ self1 env1,
    update_github_number
      (mk "v-ics-le" "VICS" "global_registry.json" {[ "VICS-RUST-002" := kept_entry ]})
      "VICS-RUST-002" 23 gap_env = Returned (self1, env1) ∧
    update_github_number self1 "VICS-RUST-002" 23 env1 = Returned (self1, env1).
Proof.
  refine (C9_update_idempotent _ _ _ _ kept_entry _). reflexivity.
Defined.

(** C10 (empty labels). An item without labels resolves to component
    ["MISC"]: no label is there to be found in the table, and the joined text
    is empty and matches no heuristic. Assigned first by an assigner
    constructed where no registry file exists, it is given the project code
    of the repository followed by ["-MISC-001"]. *)
Theorem C10_empty_labels (repo file : string) (env : Env) (issue : Issue.t) :
  files env !! file = None →
  Issue.labels issue = [] →
  _get_component_code (Issue.labels issue) = "MISC" ∧
  first_label_match (Issue.labels issue) = None ∧
  lower (join " " (Issue.labels issue)) = "" ∧
  ∃ self env',
    __init__ repo file env = Returned (self, env') ∧
    (assign_id self issue).1.1 = _get_project_code repo ++ "-MISC-001".
Proof.
  intros Hfile Hl. rewrite Hl. repeat split.
  rewrite init_cases, Hfile. eexists _, _. split; [reflexivity|].
  unfold assign_id, _count_existing. simpl. rewrite Hl.
  change (_get_component_code []) with "MISC".
  rewrite count_keys_empty. cbn [fst]. now rewrite append_assoc.
Qed.

Lemma C10_witness :
  _get_component_code [] = "MISC" ∧
  (assign_id (mk "owner/mars-irrigation" "IRRIGATION" "global_registry.json" ∅)
     (Issue.mk 4 "d" "" [] None None None false [] None)).1.1 = "IRRIGATION-MISC-001".
Proof.
  destruct (C10_empty_labels "owner/mars-irrigation" "global_registry.json" (mkEnv ∅ [])
              (Issue.mk 4 "d" "" [] None None None false [] None))
    as (Hc & _ & _ & self & env' & Hinit & Hid).
  - reflexivity.
  - reflexivity.
  - split; [exact Hc|]. injection Hinit as <- _. exact Hid.
Defined.

(** ** Further properties of the assigner *)

Section Persistence.

Lemma assign_id_fields (self : t) (issue : Issue.t) :
  repo_name (assign_id self issue).1.2 = repo_name self ∧
  project_code (assign_id self issue).1.2 = project_code self ∧
  registry_file (assign_id self issue).1.2 = registry_file self.
Proof. repeat split. Qed.

Lemma assign_all_fields (issues : list Issue.t) :
  ∀ self : t,
    repo_name (assign_all self issues).2 = repo_name self ∧
    project_code (assign_all self issues).2 = project_code self ∧
    registry_file (assign_all self issues).2 = registry_file self.
Proof.
  induction issues as [|issue issues IH]; intros self; [repeat split|].
  cbn [assign_all]. destruct (assign_id self issue) as [[gid self'] issue'] eqn:E.
  specialize (IH self'). destruct (assign_all self' issues) as [gids self''].
  cbn [snd] in *. pose proof (assign_id_fields self issue) as H.
  rewrite E in H. cbn [fst snd] in H. intuition congruence.
Qed.

Lemma assign_all_app (l1 l2 : list Issue.t) :
  ∀ self : t,
    assign_all self (l1 ++ l2)%list =
    (((assign_all self l1).1 ++ (assign_all (assign_all self l1).2 l2).1)%list,
     (assign_all (assign_all self l1).2 l2).2).
Proof.
  induction l1 as [|issue l1 IH]; intros self.
  - cbn [app assign_all fst snd]. now destruct (assign_all self l2).
  - cbn [app assign_all]. destruct (assign_id self issue) as [[gid self'] issue'].
    rewrite (IH self'). destruct (assign_all self' l1) as [gids1 self1].
    cbn [fst snd]. now destruct (assign_all self1 l2).
Qed.

Lemma assign_all_length (issues : list Issue.t) :
  ∀ self : t, length (assign_all self issues).1 = length issues.
Proof.
  induction issues as [|issue issues IH]; intros self; [reflexivity|].
  cbn [assign_all]. destruct (assign_id self issue) as [[gid self'] issue'].
  specialize (IH self'). destruct (assign_all self' issues). cbn [fst length] in *.
  congruence.
Qed.

End Persistence.

(** X2 (a run continued by a later run). A first assigner assigns a batch and
    saves; a second assigner constructed afterwards for the same repository
    and registry file starts in exactly the state the first one ended in, so
    the identifiers it gives to a second batch are those a single assigner
    would have given to it after the first batch. *)
Theorem X2_restart_continues
  (repo file : string) (env env1 : Env) (self : t) (l1 l2 : list Issue.t) :
  __init__ repo file env = Returned (self, env1) →
  ∃ env2 self2 env3,
    save (assign_all self l1).2 env1 = Returned (tt, env2) ∧
    __init__ repo file env2 = Returned (self2, env3) ∧
    self2 = (assign_all self l1).2 ∧
    (assign_all self (l1 ++ l2)%list).1 =
      ((assign_all self l1).1 ++ (assign_all self2 l2).1)%list.
Proof.
  intros Hinit.
  assert (Hself : repo_name self = repo ∧ project_code self = _get_project_code repo
                  ∧ registry_file self = file).
  { rewrite init_cases in Hinit.
    destruct (files env !! file) as [[r|]|]; inversion Hinit; repeat split. }
  destruct Hself as (Hr & Hp & Hf).
  destruct (assign_all_fields l1 self) as (Hr1 & Hp1 & Hf1).
  set (self1 := (assign_all self l1).2) in *.
  exists (mkEnv (<[file := Json (registry self1)]> (files env1)) (stdout env1)), self1,
         (mkEnv (<[file := Json (registry self1)]> (files env1))
                (stdout env1 ++ warning_lines repo)%list).
  split; [|split; [|split; [reflexivity|]]].
  - unfold save, _save_registry, write_json. now rewrite Hf1, Hf.
  - rewrite init_cases. cbn [files stdout]. rewrite lookup_insert_eq. cbn [loaded].
    destruct self1 as [rn pc rf rg]. cbn in *. subst. rewrite <- Hp. reflexivity.
  - now rewrite assign_all_app.
Qed.

Lemma X2_witness :
  (assign_all (mk "v-ics-le" "VICS" "global_registry.json" ∅)
     [item 1 ["rust"]; item 2 ["tcp"]; item 3 ["rust"]]).1 =
  ["VICS-RUST-001"; "VICS-NET-001"; "VICS-RUST-002"].
Proof.
  destruct (X2_restart_continues "v-ics-le" "global_registry.json" empty_env empty_env
              (mk "v-ics-le" "VICS" "global_registry.json" ∅)
              [item 1 ["rust"]; item 2 ["tcp"]] [item 3 ["rust"]])
    as (env2 & self2 & env3 & _ & _ & -> & H).
  - reflexivity.
  - exact H.
Defined.

(** X3 (records agree with their keys). In the registry of a deletion-free
    lifetime every record carries its own key in its [global_id] field, its
    project and component are codes the classifier can return, and the key is
    that project, a dash, that component, a dash and a number rendered by
    [format_03d]. *)
Theorem X3_records_agree_with_keys (r : gmap string Entry.t) (k : string) (e : Entry.t) :
  Lifetime r → r !! k = Some e →
  Entry.global_id e = k ∧
  In (Entry.project e) project_codes ∧ In (Entry.component e) component_codes ∧
  ∃ n : nat,
    k = Entry.project e ++ "-" ++ Entry.component e ++ "-" ++ format_03d n ∧
    (1 ≤ n ≤ count_keys r (Entry.project e ++ "-" ++ Entry.component e))%nat.
Proof.
  intros Hlife Hk.
  destruct (Lifetime_consistent r Hlife k e Hk) as (H1 & H2 & H3 & n & Hn).
  split; [exact H1|]. split; [exact H2|]. split; [exact H3|].
  exists n. split; [now rewrite <- make_id_flat|].
  destruct (Lifetime_well_numbered r Hlife k (mk_is_Some _ _ Hk))
    as (P & C & m & HP & HC & E & Hm).
  rewrite Hn in E. apply make_id_parts in E as (-> & -> & ->); auto.
Qed.

Lemma X3_witness :
  Entry.global_id
    (entry_of (mk "v-ics-le" "VICS" "global_registry.json" ∅) (item 1 ["rust"])
              "VICS-RUST-001") = "VICS-RUST-001".
Proof.
  refine (proj1 (X3_records_agree_with_keys
            (registry (assign_id (mk "v-ics-le" "VICS" "global_registry.json" ∅)
                         (item 1 ["rust"])).1.2)
            "VICS-RUST-001" _ _ _)).
  - apply Lifetime_assign; [exact Lifetime_new | reflexivity].
  - vm_compute. reflexivity.
Defined.

(** X4 (numbering without gaps). In the registry of a deletion-free lifetime,
    for every project code and component code, the identifiers present under
    that pair are exactly those numbered 1 up to the count [_count_existing]
    reports for the pair: no number is skipped and none lies beyond the
    count. *)
Theorem X4_numbering_has_no_gaps (self : t) (P C : string) (n : nat) :
  Lifetime (registry self) →
  In P project_codes → In C component_codes →
  (is_Some (registry self !! (P ++ "-" ++ C ++ "-" ++ format_03d n)) ↔
   (1 ≤ n ≤ _count_existing self (P ++ "-" ++ C))%nat).
Proof.
  intros Hlife HP HC. rewrite <- make_id_flat. unfold _count_existing. split.
  - intros Hk.
    destruct (Lifetime_well_numbered _ Hlife _ Hk) as (P' & C' & m & HP' & HC' & E & Hm).
    apply make_id_parts in E as (-> & -> & ->); auto.
  - now apply Lifetime_dense.
Qed.

Lemma X4_witness :
  is_Some (registry (assign_id (mk "v-ics-le" "VICS" "global_registry.json" ∅)
                       (item 1 ["rust"])).1.2
           !! ("VICS" ++ "-" ++ "RUST" ++ "-" ++ format_03d 1)).
Proof.
  refine (proj2 (X4_numbering_has_no_gaps _ "VICS" "RUST" 1 _ _ _) _).
  - apply Lifetime_assign; [exact Lifetime_new | reflexivity].
  - vm_compute. tauto.
  - vm_compute. tauto.
  - vm_compute. lia.
Defined.

(** X5 (identifiers can be read back). Two identifiers built from project
    codes, component codes and numbers are equal only when project, component
    and number are all equal: the codes contain no dash, no component code
    begins another one, and the rendering of numbers is injective also beyond
    999. *)
Theorem X5_identifier_parts (P C P' C' : string) (n n' : nat) :
  In P project_codes → In P' project_codes →
  In C component_codes → In C' component_codes →
  P ++ "-" ++ C ++ "-" ++ format_03d n = P' ++ "-" ++ C' ++ "-" ++ format_03d n' →
  P = P' ∧ C = C' ∧ n = n'.
Proof.
  intros HP HP' HC HC'. rewrite <- !make_id_flat. now apply make_id_parts.
Qed.

Lemma X5_witness : "VICS" = "VICS" ∧ "RUST" = "RUST" ∧ 1000 = 1000.
Proof.
  refine (X5_identifier_parts "VICS" "RUST" "VICS" "RUST" 1000 1000 _ _ _ _ _);
    try (vm_compute; tauto); reflexivity.
Defined.

(** X6 (independent counters). An assigner is constructed over the registry
    of a deletion-free lifetime and assigns a batch of items of any mix of
    components. The item at position [j] receives the project code, its own
    component and the number obtained by adding, to the records already
    present under that prefix when the batch began, the earlier items of the
    batch that resolve to the same component, and one. Items of other
    components do not advance its counter. *)
Theorem X6_counters_are_independent
  (repo file : string) (env env1 : Env) (self : t)
  (issues : list Issue.t) (j : nat) (issue : Issue.t) :
  __init__ repo file env = Returned (self, env1) →
  Lifetime (registry self) →
  issues !! j = Some issue →
  (assign_all self issues).1 !! j =
  Some (_get_project_code repo ++ "-" ++ component_of issue ++ "-" ++
        format_03d
          (_count_existing self (_get_project_code repo ++ "-" ++ component_of issue) + 1
           + length (filter (λ i, component_of i = component_of issue) (take j issues)))).
Proof.
  intros Hinit Hlife Hj.
  apply init_project_code in Hinit as [Hp _].
  rewrite <- make_id_flat, <- Hp. apply assign_all_nth; auto.
  - rewrite Hp. apply _get_project_code_in.
  - now apply Lifetime_well_numbered.
Qed.

Lemma X6_witness :
  (assign_all (mk "v-ics-le" "VICS" "global_registry.json" ∅)
     [item 1 ["rust"]; item 2 ["tcp"]; item 3 ["Rust"]; item 4 ["tcp"]]).1 !! 2
  = Some "VICS-RUST-002".
Proof.
  refine (X6_counters_are_independent "v-ics-le" "global_registry.json"
            empty_env empty_env _ _ 2 (item 3 ["Rust"]) _ _ _).
  - reflexivity.
  - exact Lifetime_new.
  - reflexivity.
Defined.

(** X7 (no record is lost in a batch). An assigner is constructed over the
    registry of a deletion-free lifetime and assigns a batch. Afterwards every
    record that was loaded is still there unchanged, the registry has grown by
    exactly one record per item, and every item of the batch has its record
    under the identifier it was given: an identifier that was free before,
    holding the item's number, title, labels and milestone, the repository
    name, status ["open"] and no remote number. *)
Theorem X7_batch_keeps_every_record
  (repo file : string) (env env1 : Env) (self : t) (issues : list Issue.t) :
  __init__ repo file env = Returned (self, env1) →
  Lifetime (registry self) →
  (∀ k e, registry self !! k = Some e →
          registry (assign_all self issues).2 !! k = Some e) ∧
  size (registry (assign_all self issues).2) =
    (size (registry self) + length issues)%nat ∧
  ∀ j issue, issues !! j = Some issue →
    ∃ gid, (assign_all self issues).1 !! j = Some gid ∧
           registry self !! gid = None ∧
           registry (assign_all self issues).2 !! gid =
             Some (Entry.mk gid (_get_project_code repo) (component_of issue)
                            (Issue.number issue) repo None (Issue.title issue)
                            (Issue.labels issue) (Issue.milestone issue) "open").
Proof.
  intros Hinit Hlife.
  apply init_project_code in Hinit as [Hp Hr].
  destruct (assign_all_keeps issues self) as (H1 & H2 & H3).
  - rewrite Hp. apply _get_project_code_in.
  - now apply Lifetime_well_numbered.
  - split; [exact H1|]. split; [exact H2|].
    intros j issue Hj. destruct (H3 j issue Hj) as (gid & Hg & Hnone & Hsome).
    exists gid. split; [exact Hg|]. split; [exact Hnone|].
    rewrite Hsome. unfold entry_of. now rewrite Hp, Hr.
Qed.

Lemma X7_witness :
  size (registry (assign_all (mk "v-ics-le" "VICS" "global_registry.json" ∅)
                    [item 1 ["rust"]; item 2 ["tcp"]; item 3 ["Rust"]]).2) = 3.
Proof.
  refine (proj1 (proj2 (X7_batch_keeps_every_record "v-ics-le" "global_registry.json"
                          empty_env empty_env _
                          [item 1 ["rust"]; item 2 ["tcp"]; item 3 ["Rust"]] _ _))).
  - reflexivity.
  - exact Lifetime_new.
Defined.

Section Updates.

Lemma update_twice_unfold (self : t) (g1 : string) (v1 : Z) (g2 : string) (v2 : Z)
  (env : Env) :
  update_twice self g1 v1 g2 v2 env =
  match update_github_number self g1 v1 env with
  | Returned (self1, env1) => update_github_number self1 g2 v2 env1
  | Raised e => Raised e
  end.
Proof.
  unfold update_twice, mbind, M_bind.
  now destruct (update_github_number self g1 v1 env) as [[self1 env1]|e].
Qed.

Lemma update_present (self : t) (g : string) (v : Z) (env : Env) (e : Entry.t) :
  registry self !! g = Some e →
  update_github_number self g v env =
  Returned (set_registry self (<[g := Entry.set_github_number e v]> (registry self)),
            mkEnv (<[registry_file self :=
                       Json (<[g := Entry.set_github_number e v]> (registry self))]>
                     (files env))
                  (stdout env)).
Proof.
  intros Hg. pose proof (update_github_number_cases self g v env) as H.
  now rewrite Hg in H.
Qed.

Lemma update_absent (self : t) (g : string) (v : Z) (env : Env) :
  registry self !! g = None → update_github_number self g v env = Returned (self, env).
Proof.
  intros Hg. pose proof (update_github_number_cases self g v env) as H.
  now rewrite Hg in H.
Qed.

End Updates.

(** X8 (updates leave the numbering alone). On every registry, also one with
    gaps, [update_github_number] adds no key and removes none, changes the
    count under no prefix, and so does not change the identifier the next
    [assign_id] returns for any item. *)
Theorem X8_update_keeps_numbering
  (self self' : t) (g : string) (v : Z) (env env' : Env) :
  update_github_number self g v env = Returned (self', env') →
  (∀ k, is_Some (registry self' !! k) ↔ is_Some (registry self !! k)) ∧
  (∀ prefix, _count_existing self' prefix = _count_existing self prefix) ∧
  (∀ issue, (assign_id self' issue).1.1 = (assign_id self issue).1.1).
Proof.
  intros Hu.
  assert (Hp : project_code self' = project_code self).
  { now apply update_github_number_keeps in Hu as (Hp & _). }
  assert (Hcount : ∀ prefix, _count_existing self' prefix = _count_existing self prefix).
  { intros prefix. unfold _count_existing.
    apply update_registry_cases in Hu as [->|(e & Hg & ->)]; [reflexivity|].
    now apply count_keys_insert_present with e. }
  split; [|split; [exact Hcount|]].
  - intros k. apply update_registry_cases in Hu as [->|(e & Hg & ->)]; [reflexivity|].
    rewrite lookup_insert_is_Some'. split; [|tauto].
    intros [<-|H]; [eauto | exact H].
  - intros issue. rewrite !assign_id_explicit. cbn [fst]. now rewrite Hp, Hcount.
Qed.

Lemma X8_witness :
  match update_github_number
          (mk "v-ics-le" "VICS" "global_registry.json" {[ "VICS-RUST-002" := kept_entry ]})
          "VICS-RUST-002" 23 gap_env with
  | Returned (self', _) =>
      (assign_id self' (item 5 ["rust"])).1.1 =
      (assign_id (mk "v-ics-le" "VICS" "global_registry.json"
                     {[ "VICS-RUST-002" := kept_entry ]}) (item 5 ["rust"])).1.1
  | Raised _ => False
  end.
Proof.
  destruct (update_github_number _ _ _ _) as [[self' env']|e] eqn:E.
  - exact (proj2 (proj2 (X8_update_keeps_numbering _ _ _ _ _ _ E)) (item 5 ["rust"])).
  - vm_compute in E. discriminate E.
Defined.

(** X9 (the last update wins). Two updates of the same identifier in a row
    leave the assigner, the registry file and the console exactly as the
    second update alone would, whether or not the identifier is present. *)
Theorem X9_last_update_wins (self : t) (g : string) (v1 v2 : Z) (env : Env) :
  update_twice self g v1 g v2 env = update_github_number self g v2 env.
Proof.
  rewrite update_twice_unfold.
  destruct (registry self !! g) as [e|] eqn:Hg.
  - rewrite (update_present self g v1 env e Hg).
    rewrite (update_present _ g v2 _ (Entry.set_github_number e v1))
      by apply lookup_insert_eq.
    rewrite (update_present self g v2 env e Hg).
    cbn [registry set_registry registry_file files stdout].
    unfold set_registry. cbn [repo_name project_code registry_file].
    rewrite !insert_insert_eq. reflexivity.
  - rewrite (update_absent self g v1 env Hg). reflexivity.
Qed.

(** X10 (updates of different identifiers commute). Two updates of different
    identifiers give the same assigner, the same registry file and the same
    console in either order, whether each identifier is present or not. *)
Theorem X10_updates_commute
  (self : t) (g1 g2 : string) (v1 v2 : Z) (env : Env) :
  g1 ≠ g2 →
  update_twice self g1 v1 g2 v2 env = update_twice self g2 v2 g1 v1 env.
Proof.
  intros Hne. rewrite !update_twice_unfold.
  destruct (registry self !! g1) as [e1|] eqn:H1;
    destruct (registry self !! g2) as [e2|] eqn:H2.
  - rewrite (update_present self g1 v1 env e1 H1), (update_present self g2 v2 env e2 H2).
    cbn beta iota.
    rewrite (update_present _ g2 v2 _ e2)
      by (cbn [registry set_registry]; rewrite lookup_insert_ne; auto).
    rewrite (update_present _ g1 v1 _ e1)
      by (cbn [registry set_registry]; rewrite lookup_insert_ne; auto).
    cbn [registry set_registry registry_file files stdout].
    unfold set_registry. cbn [repo_name project_code registry_file].
    rewrite !insert_insert_eq.
    now rewrite (insert_insert_ne (registry self) g1 g2) by exact Hne.
  - rewrite (update_present self g1 v1 env e1 H1), (update_absent self g2 v2 env H2).
    cbn beta iota.
    rewrite (update_absent _ g2 v2)
      by (cbn [registry set_registry]; rewrite lookup_insert_ne; auto).
    rewrite ?(update_present self g1 v1 env e1 H1). reflexivity.
  - rewrite (update_absent self g1 v1 env H1), (update_present self g2 v2 env e2 H2).
    cbn beta iota.
    rewrite (update_absent _ g1 v1)
      by (cbn [registry set_registry]; rewrite lookup_insert_ne; auto).
    rewrite ?(update_present self g2 v2 env e2 H2). reflexivity.
  - rewrite (update_absent self g1 v1 env H1), (update_absent self g2 v2 env H2).
    cbn beta iota.
    rewrite ?(update_absent self g1 v1 env H1), ?(update_absent self g2 v2 env H2).
    reflexivity.
Qed.

Lemma X10_witness :
  update_twice (mk "v-ics-le" "VICS" "global_registry.json" {[ "VICS-RUST-002" := kept_entry ]})
    "VICS-RUST-002" 23 "VICS-NET-001" 5 gap_env =
  update_twice (mk "v-ics-le" "VICS" "global_registry.json" {[ "VICS-RUST-002" := kept_entry ]})
    "VICS-NET-001" 5 "VICS-RUST-002" 23 gap_env.
Proof.
  refine (X10_updates_commute _ "VICS-RUST-002" "VICS-NET-001" 23 5 gap_env _).
  discriminate.
Defined.

Section ClassifierMore.

Lemma split_nonempty (sep : ascii) (s : string) : split sep s ≠ [].
Proof.
  induction s as [|c s IH]; cbn [split]; [discriminate|].
  destruct (Ascii.eqb c sep); [discriminate|].
  destruct (split sep s); [contradiction | discriminate].
Qed.

Lemma str_in_slash_cons (c : ascii) (s : string) :
  str_in "/" (String c s) = false ↔ c ≠ "/"%char ∧ str_in "/" s = false.
Proof.
  cbn [str_in startswith]. rewrite startswith_nil.
  destruct (Ascii.eqb_spec c "/") as [->|Hc]; cbn [orb]; split.
  - discriminate.
  - intros [H _]. contradiction.
  - auto.
  - tauto.
Qed.

Lemma split_slashless (s : string) : str_in "/" s = false → split "/" s = [s].
Proof.
  induction s as [|c s IH]; [reflexivity|].
  intros H. apply str_in_slash_cons in H as [Hc Hs]. cbn [split].
  destruct (Ascii.eqb_spec c "/"); [contradiction|]. now rewrite (IH Hs).
Qed.

Lemma split_after_slash (a b : string) :
  ∃ h r, split "/" (a ++ "/" ++ b) = (h :: r ++ split "/" b)%list.
Proof.
  induction a as [|c a (h & r & IH)].
  - exists "", []. reflexivity.
  - cbn [String.append split]. destruct (Ascii.eqb c "/").
    + exists "", (h :: r). cbn [String.append] in IH. now rewrite IH.
    + cbn [String.append] in IH. rewrite IH. now exists (String c h), r.
Qed.

Lemma list_last_app {A : Type} (l1 l2 : list A) (d : A) :
  l2 ≠ [] → List.last (l1 ++ l2)%list d = List.last l2 d.
Proof.
  intros H. induction l1 as [|x l1 IH]; [reflexivity|].
  cbn [app List.last]. destruct (l1 ++ l2)%list eqn:E; [|exact IH].
  apply app_eq_nil in E as [_ ->]. contradiction.
Qed.

Lemma clean_name_of_owner (owner name : string) :
  str_in "/" name = false → clean_name_of (owner ++ "/" ++ name) = name.
Proof.
  intros Hn. unfold clean_name_of.
  assert (Hs : str_in "/" (owner ++ "/" ++ name) = true)
    by (apply str_in_spec; now exists owner, name).
  rewrite Hs. destruct (split_after_slash owner name) as (h & r & ->).
  change (h :: r ++ split "/" name)%list with ((h :: r) ++ split "/" name)%list.
  rewrite list_last_app by apply split_nonempty.
  now rewrite (split_slashless name Hn).
Qed.

Lemma PROJECT_CODES_keys_slashless (key code : string) :
  In (key, code) PROJECT_CODES → str_in "/" key = false.
Proof.
  assert (H : forallb (λ kc, negb (str_in "/" kc.1)) PROJECT_CODES = true)
    by (vm_compute; reflexivity).
  rewrite forallb_forall in H. intros Hin. apply H in Hin.
  now apply negb_true_iff in Hin.
Qed.

Lemma lower_char_idem (c : ascii) : lower_char (lower_char c) = lower_char c.
Proof.
  destruct c as [[] [] [] [] [] [] [] []]; vm_compute; reflexivity.
Qed.

Lemma lower_idem (s : string) : lower (lower s) = lower s.
Proof.
  induction s as [|c s IH]; cbn [lower]; [reflexivity|].
  now rewrite lower_char_idem, IH.
Qed.

Lemma lower_append (a b : string) : lower (a ++ b) = lower a ++ lower b.
Proof. induction a as [|c a IH]; cbn [String.append lower]; [reflexivity | now rewrite IH]. Qed.

Lemma lower_join (l : list string) : lower (join " " l) = join " " (map lower l).
Proof.
  induction l as [|x l IH]; [reflexivity|].
  destruct l as [|y l]; [reflexivity|].
  change (join " " (x :: y :: l)) with (x ++ " " ++ join " " (y :: l)).
  change (join " " (map lower (x :: y :: l)))
    with (lower x ++ " " ++ join " " (map lower (y :: l))).
  now rewrite !lower_append, IH.
Qed.

Lemma first_label_match_lower (l : list string) :
  first_label_match (map lower l) = first_label_match l.
Proof.
  induction l as [|x l IH]; [reflexivity|].
  cbn [map first_label_match]. now rewrite lower_idem, IH.
Qed.

Lemma _get_component_code_lower (l : list string) :
  _get_component_code (map lower l) = _get_component_code l.
Proof.
  unfold _get_component_code.
  rewrite first_label_match_lower, !lower_join, map_map.
  now rewrite (map_ext _ _ lower_idem).
Qed.

Lemma codes_not_empty (c : string) :
  In c project_codes ∨ In c component_codes → c ≠ "".
Proof.
  assert (H : forallb (λ c, negb (String.eqb c "")) (project_codes ++ component_codes)
              = true) by (vm_compute; reflexivity).
  rewrite forallb_forall in H. intros Hin.
  apply in_or_app, H, negb_true_iff, String.eqb_neq in Hin. exact Hin.
Qed.

Lemma project_code_owner (owner name : string) :
  str_in "/" name = false →
  _get_project_code (owner ++ "/" ++ name) = _get_project_code name.
Proof.
  intros Hn. unfold _get_project_code.
  rewrite (clean_name_of_owner owner name Hn).
  unfold clean_name_of. now rewrite Hn.
Qed.

End ClassifierMore.

(** X11 (the owner does not matter). For a repository name without a slash,
    putting any owner and a slash in front of it, however many slashes the
    owner itself contains, gives the same project code as the bare name. *)
Theorem X11_owner_is_ignored (owner name : string) :
  str_in "/" name = false →
  _get_project_code (owner ++ "/" ++ name) = _get_project_code name.
Proof. apply project_code_owner. Qed.

Lemma X11_witness :
  _get_project_code ("github.com/bondlegend4" ++ "/" ++ "lunaco-sim-fork") =
  _get_project_code "lunaco-sim-fork".
Proof.
  refine (X11_owner_is_ignored "github.com/bondlegend4" "lunaco-sim-fork" _).
  reflexivity.
Defined.

(** X12 (every table key gets its own code). Each repository name written in
    [PROJECT_CODES] resolves to the code written beside it, bare or behind any
    owner: the exact lookup comes first, so no other key that merely contains
    it, or is contained in it, takes precedence. *)
Theorem X12_table_keys_resolve (key code owner : string) :
  In (key, code) PROJECT_CODES →
  _get_project_code key = code ∧ _get_project_code (owner ++ "/" ++ key) = code.
Proof.
  intros Hin.
  pose proof (PROJECT_CODES_keys_slashless key code Hin) as Hs.
  assert (H : _get_project_code key = code).
  { unfold _get_project_code, clean_name_of. rewrite Hs.
    now rewrite (dict_get_unique _ _ _ PROJECT_CODES_keys Hin). }
  split; [exact H|]. now rewrite project_code_owner.
Qed.

Lemma X12_witness :
  _get_project_code "V-ICS" = "VICS" ∧
  _get_project_code ("bondlegend4" ++ "/" ++ "V-ICS") = "VICS".
Proof.
  refine (X12_table_keys_resolve "V-ICS" "VICS" "bondlegend4" _).
  vm_compute. tauto.
Defined.

(** X13 (component classification ignores letter case). Two label lists that
    agree once every label is lowercased resolve to the same component code,
    in the table walk and in the fallback heuristics alike; in particular a
    list and its lowercased form resolve alike. *)
Theorem X13_component_code_ignores_case (l1 l2 : list string) :
  map lower l1 = map lower l2 →
  _get_component_code l1 = _get_component_code l2.
Proof.
  intros H. rewrite <- (_get_component_code_lower l1), <- (_get_component_code_lower l2).
  now rewrite H.
Qed.

Lemma X13_witness :
  _get_component_code ["URGENT"; "Life-Support"] =
  _get_component_code ["urgent"; "LIFE-support"].
Proof.
  refine (X13_component_code_ignores_case _ _ _). reflexivity.
Defined.

(** X14 (shape of every identifier). Whatever the repository name, the loaded
    registry and the item, the identifier [assign_id] returns for a
    constructed assigner is a project code, a dash, a component code, a dash
    and a number of at least 1 rendered by [format_03d]; both codes come from
    the tables or are ["MISC"], are not empty and contain no dash, and the
    rendering is at least three characters wide. *)
Theorem X14_identifier_shape
  (repo file : string) (env env1 : Env) (self : t) (issue : Issue.t) :
  __init__ repo file env = Returned (self, env1) →
  ∃ (P C : string) (n : nat),
    (assign_id self issue).1.1 = P ++ "-" ++ C ++ "-" ++ format_03d n ∧
    P = _get_project_code repo ∧ C = _get_component_code (Issue.labels issue) ∧
    In P project_codes ∧ In C component_codes ∧
    P ≠ "" ∧ C ≠ "" ∧ dashless P = true ∧ dashless C = true ∧
    (1 ≤ n)%nat ∧ (3 ≤ String.length (format_03d n))%nat.
Proof.
  intros Hinit. apply init_project_code in Hinit as [Hp _].
  exists (_get_project_code repo), (_get_component_code (Issue.labels issue)),
         (_count_existing self (project_code self ++ "-" ++ component_of issue) + 1)%nat.
  pose proof (_get_project_code_in repo) as HP.
  pose proof (_get_component_code_in (Issue.labels issue)) as HC.
  split; [rewrite assign_id_explicit; cbn [fst]; now rewrite make_id_flat, Hp|].
  repeat split; auto using codes_dashless, format_03d_width.
  - apply codes_not_empty. auto.
  - apply codes_not_empty. auto.
  - lia.
Qed.

Lemma X14_witness :
  ∃ (P C : string) (n : nat),
    (assign_id (mk "v-ics-le" "VICS" "global_registry.json" {[ "VICS-RUST-002" := kept_entry ]})
       (item 5 ["rust"])).1.1 = P ++ "-" ++ C ++ "-" ++ format_03d n ∧
    P = "VICS" ∧ C = "RUST".
Proof.
  destruct (X14_identifier_shape "v-ics-le" "global_registry.json" gap_env gap_env
              (mk "v-ics-le" "VICS" "global_registry.json" {[ "VICS-RUST-002" := kept_entry ]})
              (item 5 ["rust"]))
    as (P & C & n & H & HP & HC & _).
  - reflexivity.
  - exists P, C, n. split; [exact H|]. split; [exact HP | exact HC].
Defined.

(** X15 (a count moves by at most one). On every registry, also one with gaps
    or with keys of any other shape, one [assign_id] lowers the count under no
    prefix and raises it by at most one; under the item's own prefix the count
    grows by one exactly when the returned identifier was not yet a key. *)
Theorem X15_count_step (self : t) (issue : Issue.t) (prefix : string) :
  let gid := (assign_id self issue).1.1 in
  let self' := (assign_id self issue).1.2 in
  (_count_existing self prefix ≤ _count_existing self' prefix
   ≤ _count_existing self prefix + 1)%nat ∧
  (registry self !! gid = None →
   _count_existing self' (project_code self ++ "-" ++ component_of issue) =
   (_count_existing self (project_code self ++ "-" ++ component_of issue) + 1)%nat) ∧
  (is_Some (registry self !! gid) →
   _count_existing self' prefix = _count_existing self prefix).
Proof.
  cbv zeta. rewrite assign_id_explicit. cbn [fst snd]. unfold _count_existing.
  cbn [registry set_registry].
  set (gid := make_id _ _ _). set (e := entry_of self issue gid).
  split; [|split].
  - destruct (registry self !! gid) as [e0|] eqn:E.
    + rewrite (count_keys_insert_present _ _ e0) by exact E. lia.
    + rewrite count_keys_insert_fresh by exact E. unfold hit.
      destruct (startswith gid prefix); lia.
  - intros E. rewrite count_keys_insert_fresh by exact E.
    unfold gid. now rewrite hit_make_id_same.
  - intros [e0 E]. now apply count_keys_insert_present with e0.
Qed.

Lemma X15_witness :
  _count_existing
    (assign_id (mk "v-ics-le" "VICS" "global_registry.json" {[ "VICS-RUST-002" := kept_entry ]})
       (item 5 ["rust"])).1.2 "VICS-RUST" =
  _count_existing
    (mk "v-ics-le" "VICS" "global_registry.json" {[ "VICS-RUST-002" := kept_entry ]})
    "VICS-RUST" ∧
  _count_existing
    (assign_id (mk "v-ics-le" "VICS" "global_registry.json" ∅) (item 5 ["rust"])).1.2
    ("VICS" ++ "-" ++ component_of (item 5 ["rust"])) = (0 + 1)%nat.
Proof.
  split.
  - refine (proj2 (proj2 (X15_count_step
              (mk "v-ics-le" "VICS" "global_registry.json" {[ "VICS-RUST-002" := kept_entry ]})
              (item 5 ["rust"]) "VICS-RUST")) _).
    vm_compute. eauto.
  - refine (proj1 (proj2 (X15_count_step
              (mk "v-ics-le" "VICS" "global_registry.json" ∅)
              (item 5 ["rust"]) "VICS-RUST")) _).
    reflexivity.
Defined.

Section SummaryFacts.

Lemma ascii_compare_cases (a b : ascii) :
  (Ascii.compare a b = Eq ∧ N_of_ascii a = N_of_ascii b) ∨
  (Ascii.compare a b = Lt ∧ (N_of_ascii a < N_of_ascii b)%N) ∨
  (Ascii.compare a b = Gt ∧ (N_of_ascii b < N_of_ascii a)%N).
Proof.
  unfold Ascii.compare. destruct (N.compare_spec (N_of_ascii a) (N_of_ascii b)); auto.
Qed.

Lemma str_le_trans (a b c : string) : str_le a b → str_le b c → str_le a c.
Proof.
  unfold str_le, String.leb. revert b c.
  induction a as [|x a IH]; intros [|y b] [|z c]; cbn [String.compare];
    try reflexivity; try discriminate.
  destruct (ascii_compare_cases x y) as [[-> Hxy]|[[-> Hxy]|[-> Hxy]]];
    destruct (ascii_compare_cases y z) as [[-> Hyz]|[[-> Hyz]|[-> Hyz]]];
    destruct (ascii_compare_cases x z) as [[-> Hxz]|[[-> Hxz]|[-> Hxz]]];
    try discriminate; try reflexivity; try lia.
  apply IH.
Qed.

#[local] Instance str_le_transitive : Transitive str_le.
Proof. intros a b c. apply str_le_trans. Qed.

#[local] Instance str_le_total : Total str_le.
Proof. intros a b. apply String.leb_total. Qed.

Lemma group_step_lookup (gid : string) (data : Entry.t)
  (groups : gmap string (list string)) (key : string) :
  group_step gid data groups !! key =
  if decide (key = group_key data)
  then Some (default [] (groups !! key) ++ [gid])%list
  else groups !! key.
Proof.
  unfold group_step. fold (group_key data).
  destruct (decide (key = group_key data)) as [->|Hne].
  - rewrite lookup_insert_eq. f_equal. f_equal. rewrite lookup_total_alt.
    destruct (groups !! group_key data) as [l|] eqn:E; [now rewrite E|].
    now rewrite lookup_insert_eq.
  - rewrite lookup_insert_ne by congruence.
    destruct (groups !! group_key data); [reflexivity|].
    now rewrite lookup_insert_ne by congruence.
Qed.

Lemma group_size_empty (key : string) : group_size ∅ key = 0.
Proof. unfold group_size. now rewrite map_filter_empty, map_size_empty. Qed.

Lemma group_size_insert (r : gmap string Entry.t) (gid : string) (e : Entry.t)
  (key : string) :
  r !! gid = None →
  group_size (<[gid := e]> r) key =
  (group_size r key + if decide (group_key e = key) then 1 else 0)%nat.
Proof.
  intros Hg. unfold group_size. destruct (decide (group_key e = key)) as [Hk|Hk].
  - rewrite map_filter_insert_True by exact Hk.
    rewrite map_size_insert_None; [lia|].
    apply map_lookup_filter_None. now left.
  - rewrite map_filter_insert_not'; [lia|exact Hk|].
    intros y Hy. congruence.
Qed.

Lemma group_size_positive (r : gmap string Entry.t) (key : string) :
  (0 < group_size r key)%nat ↔ ∃ gid e, r !! gid = Some e ∧ group_key e = key.
Proof.
  unfold group_size. split.
  - intros H.
    assert (Hne : filter (λ kv : string * Entry.t, group_key kv.2 = key) r ≠ ∅).
    { apply map_size_non_empty_iff. lia. }
    apply map_choose in Hne as (gid & e & He).
    apply map_lookup_filter_Some in He as [He Hk]. eauto.
  - intros (gid & e & He & Hk).
    assert (Hne : size (filter (λ kv : string * Entry.t, group_key kv.2 = key) r) ≠ 0).
    { apply map_size_non_empty_iff. intros Hempty.
      assert (Hl : filter (λ kv : string * Entry.t, group_key kv.2 = key) r !! gid
                   = Some e) by (apply map_lookup_filter_Some; auto).
      rewrite Hempty, lookup_empty in Hl. discriminate. }
    lia.
Qed.

(** What the grouping loop has collected: under every key a list as long as
    the group, and no entry for an empty group. *)
Lemma groups_spec (r : gmap string Entry.t) (key : string) :
  length (map_fold group_step ∅ r !!! key) = group_size r key ∧
  (is_Some (map_fold group_step ∅ r !! key) ↔ (0 < group_size r key)%nat).
Proof.
  revert key.
  apply (map_fold_weak_ind
           (λ groups m, ∀ key,
              length (groups !!! key) = group_size m key ∧
              (is_Some (groups !! key) ↔ (0 < group_size m key)%nat))).
  - intros key. rewrite lookup_total_alt, lookup_empty, group_size_empty. cbn.
    split; [reflexivity|]. split; [intros [x Hx]; discriminate | lia].
  - intros gid e m groups Hm IH key.
    rewrite lookup_total_alt, group_step_lookup, group_size_insert by exact Hm.
    destruct (IH key) as [Hlen Hsome]. rewrite lookup_total_alt in Hlen.
    destruct (decide (key = group_key e)) as [->|Hne].
    + rewrite decide_True by reflexivity. cbn [default]. unfold id at 1.
      change (@inhabitant (list string) _) with (@nil string) in Hlen.
      rewrite length_app, Hlen. change (length [gid]) with 1.
      split; [reflexivity|]. split; [lia | eauto].
    + rewrite decide_False by congruence. split; [lia|].
      rewrite Hsome. split; lia.
Qed.

Lemma print_groups_spec (groups : gmap string (list string)) (keys : list string)
  (env : Env) :
  print_groups groups keys env =
  Returned (tt, mkEnv (files env)
                  (stdout env ++
                   map (λ key, (key ++ ": " ++ str_of_nat (length (groups !!! key))
                                    ++ " issues")%string) keys)%list).
Proof.
  revert env. induction keys as [|key keys IH]; intros env.
  - cbn. rewrite app_nil_r. now destruct env.
  - cbn [print_groups map]. unfold mbind, M_bind, print. rewrite IH. cbn [files stdout].
    now rewrite <- app_assoc.
Qed.

Lemma sum_list_pointwise {A : Type} (f g : A → nat) (l : list A) :
  sum_list (map (λ x, f x + g x)%nat l) = (sum_list (map f l) + sum_list (map g l))%nat.
Proof. induction l as [|x l IH]; cbn; lia. Qed.

Lemma sum_list_indicator (k : string) (keys : list string) :
  NoDup keys →
  sum_list (map (λ key, if decide (k = key) then 1 else 0)%nat keys) =
  if decide (k ∈ keys) then 1 else 0.
Proof.
  induction 1 as [|x keys Hx Hnd IH]; [reflexivity|].
  cbn [map sum_list]. rewrite IH.
  destruct (decide (k = x)) as [->|Hne].
  - rewrite (decide_False (P := x ∈ keys)) by exact Hx.
    rewrite decide_True by (now left). reflexivity.
  - destruct (decide (k ∈ keys)) as [Hin|Hout].
    + rewrite decide_True by (now right). reflexivity.
    + rewrite decide_False; [reflexivity|].
      intros Hin. apply elem_of_cons in Hin as [?|?]; contradiction.
Qed.

Lemma sum_group_sizes (keys : list string) (r : gmap string Entry.t) :
  NoDup keys →
  (∀ gid e, r !! gid = Some e → group_key e ∈ keys) →
  sum_list (map (group_size r) keys) = size r.
Proof.
  intros Hnd. induction r as [|gid e r Hg IH] using map_ind; intros Hall.
  - rewrite map_size_empty. induction keys as [|k keys IHk]; [reflexivity|].
    cbn [map sum_list]. rewrite group_size_empty. apply NoDup_cons in Hnd as [_ Hnd].
    rewrite IHk; [reflexivity | exact Hnd|]. intros g x Hx. rewrite lookup_empty in Hx.
    discriminate.
  - rewrite map_size_insert_None by exact Hg.
    rewrite (map_ext _ (λ key, group_size r key + if decide (group_key e = key) then 1 else 0)%nat)
      by (intros key; now apply group_size_insert).
    rewrite sum_list_pointwise, sum_list_indicator by exact Hnd.
    rewrite decide_True by (apply (Hall gid e), lookup_insert_eq).
    rewrite IH; [lia|].
    intros g x Hx. apply (Hall g x). rewrite lookup_insert_ne; [exact Hx|].
    intros <-. congruence.
Qed.

End SummaryFacts.

Section SummaryAndNumbering.

Lemma map_is_fmap {A B : Type} (f : A → B) (l : list A) : map f l = f <$> l.
Proof. induction l as [|x l IH]; cbn; [reflexivity | now rewrite IH]. Qed.

Lemma group_size_insert_present (r : gmap string Entry.t) (gid : string)
  (e e' : Entry.t) (key : string) :
  r !! gid = Some e → group_key e' = group_key e →
  group_size (<[gid := e']> r) key = group_size r key.
Proof.
  intros Hg Hk. rewrite <- (insert_delete_id r gid e Hg) at 2.
  rewrite <- (insert_delete_eq r gid e').
  rewrite !group_size_insert by apply lookup_delete_eq. now rewrite Hk.
Qed.

Lemma prefix_parts (P C P' C' : string) :
  In P project_codes → In P' project_codes →
  P ++ "-" ++ C = P' ++ "-" ++ C' → P = P' ∧ C = C'.
Proof.
  intros HP HP' E.
  pose proof (startswith_refl (P ++ "-" ++ C)) as H. rewrite E in H at 2.
  apply startswith_split in H as [-> _]; [|apply codes_dashless; auto..].
  apply String.app_inj in E. cbn [String.append] in E. injection E as ->. auto.
Qed.

Lemma Lifetime_group_size (r : gmap string Entry.t) :
  Lifetime r →
  ∀ P C, In P project_codes → In C component_codes →
         group_size r (P ++ "-" ++ C) = count_keys r (P ++ "-" ++ C).
Proof.
  induction 1 as [|self issue Hlife IH Hp|self self' g v env env' Hlife IH Hu];
    intros P C HP HC.
  - now rewrite group_size_empty, count_keys_empty.
  - rewrite assign_id_explicit. cbn [fst snd registry set_registry].
    assert (HP0 : In (project_code self) project_codes)
      by (rewrite Hp; apply _get_project_code_in).
    assert (HC0 : In (component_of issue) component_codes) by apply _get_component_code_in.
    pose proof (Lifetime_well_numbered _ Hlife) as Hwf.
    pose proof (next_id_fresh _ _ _ Hwf HP0 HC0) as Hfresh.
    unfold _count_existing.
    rewrite group_size_insert, count_keys_insert_fresh by exact Hfresh.
    rewrite (IH P C HP HC). f_equal.
    change (group_key (entry_of self issue _))
      with (project_code self ++ "-" ++ component_of issue).
    destruct (decide (project_code self ++ "-" ++ component_of issue = P ++ "-" ++ C))
      as [E|Hne].
    + apply prefix_parts in E as [<- <-]; auto. now rewrite hit_make_id_same.
    + rewrite hit_make_id_other; auto. intros [<- <-]. now apply Hne.
  - apply update_registry_cases in Hu as [->|(e0 & Hg & ->)]; [now apply IH|].
    rewrite (group_size_insert_present _ _ e0) by (exact Hg || reflexivity).
    rewrite (count_keys_insert_present _ _ e0) by exact Hg. now apply IH.
Qed.

End SummaryAndNumbering.

(** X16 (what the summary prints). [show_summary] writes no file and changes
    no record. On an empty registry it prints the single line
    [No issues in registry yet]. On any other registry it prints the heading,
    a rule of sixty equals signs, one line per group and the rule again; the
    groups are the distinct project-component pairs of the records, each
    listed once, in ascending order of their text, each with the number of
    records that carry that pair, and these numbers add up to the size of the
    registry. *)
Theorem X16_summary (self : t) (env : Env) :
  (registry self = ∅ →
   show_summary self env =
   Returned (tt, mkEnv (files env) (stdout env ++ ["No issues in registry yet"])%list)) ∧
  (registry self ≠ ∅ →
   ∃ keys : list string,
     show_summary self env =
     Returned (tt, mkEnv (files env)
                     (stdout env ++
                      [String "010" "Global ID Summary:"; str_mul "=" 60] ++
                      map (λ key, (key ++ ": "
                                   ++ str_of_nat (group_size (registry self) key)
                                   ++ " issues")%string) keys ++
                      [str_mul "=" 60])%list) ∧
     StronglySorted str_le keys ∧ NoDup keys ∧
     (∀ key, key ∈ keys ↔
             ∃ gid e, registry self !! gid = Some e ∧
                      (Entry.project e ++ "-" ++ Entry.component e)%string = key) ∧
     sum_list (map (group_size (registry self)) keys) = size (registry self)).
Proof.
  split.
  - intros Hr. unfold show_summary. now rewrite Hr, map_size_empty.
  - intros Hr. unfold show_summary.
    destruct (size (registry self)) as [|n] eqn:Hsize;
      [now apply map_size_empty_iff in Hsize|].
    set (groups := map_fold group_step ∅ (registry self)).
    set (keys := sorted (map fst (map_to_list groups))).
    assert (Hperm : keys ≡ₚ (map_to_list groups).*1).
    { unfold keys, sorted. rewrite map_is_fmap. apply merge_sort_Permutation. }
    assert (Hin : ∀ key, key ∈ keys ↔ (0 < group_size (registry self) key)%nat).
    { intros key. rewrite Hperm, <- (proj2 (groups_spec (registry self) key)).
      fold groups. rewrite list_elem_of_fmap. split.
      - intros ([k l] & -> & Hkl). apply elem_of_map_to_list in Hkl. eauto.
      - intros [l Hl]. exists (key, l). split; [reflexivity|].
        now apply elem_of_map_to_list. }
    assert (Hnd : NoDup keys).
    { rewrite Hperm. apply NoDup_fst_map_to_list. }
    exists keys. split; [|split; [|split; [|split]]].
    + unfold mbind, M_bind, print. cbn [files stdout].
      rewrite print_groups_spec. cbn [files stdout].
      rewrite (map_ext _ (λ key, (key ++ ": "
                                  ++ str_of_nat (group_size (registry self) key)
                                  ++ " issues")%string)).
      * rewrite <- !app_assoc. reflexivity.
      * intros key. unfold groups. now rewrite (proj1 (groups_spec (registry self) key)).
    + apply (@StronglySorted_merge_sort _ str_le _ str_le_transitive str_le_total).
    + exact Hnd.
    + intros key. rewrite Hin. apply group_size_positive.
    + rewrite <- Hsize. apply sum_group_sizes; [exact Hnd|].
      intros gid e He. apply Hin, group_size_positive. eauto.
Qed.

Lemma X16_witness :
  show_summary (mk "v-ics-le" "VICS" "global_registry.json" ∅) empty_env =
  Returned (tt, mkEnv ∅ ["No issues in registry yet"]) ∧
  ∃ keys : list string,
    show_summary
      (mk "v-ics-le" "VICS" "global_registry.json" {[ "VICS-RUST-002" := kept_entry ]})
      empty_env =
    Returned (tt, mkEnv ∅
                    ([String "010" "Global ID Summary:"; str_mul "=" 60] ++
                     map (λ key, (key ++ ": "
                                  ++ str_of_nat (group_size {[ "VICS-RUST-002" := kept_entry ]} key)
                                  ++ " issues")%string) keys ++
                     [str_mul "=" 60])%list) ∧
    NoDup keys.
Proof.
  split.
  - refine (proj1 (X16_summary (mk "v-ics-le" "VICS" "global_registry.json" ∅) empty_env) _).
    reflexivity.
  - destruct (proj2 (X16_summary
                (mk "v-ics-le" "VICS" "global_registry.json"
                    {[ "VICS-RUST-002" := kept_entry ]}) empty_env))
      as (keys & Hrun & _ & Hnd & _).
    + apply insert_non_empty.
    + exists keys. split; [exact Hrun | exact Hnd].
Defined.

(** X17 (the summary agrees with the numbering). In the registry of a
    deletion-free lifetime, the number of records [show_summary] counts for
    a project and component is the count [_count_existing] reports for that
    prefix, so the next identifier under the prefix carries the printed count
    plus one. *)
Theorem X17_summary_agrees_with_numbering (self : t) (issue : Issue.t) (P C : string) :
  Lifetime (registry self) →
  In P project_codes → In C component_codes →
  group_size (registry self) (P ++ "-" ++ C) = _count_existing self (P ++ "-" ++ C) ∧
  (project_code self = P → component_of issue = C →
   (assign_id self issue).1.1 =
   P ++ "-" ++ C ++ "-" ++ format_03d (group_size (registry self) (P ++ "-" ++ C) + 1)).
Proof.
  intros Hlife HP HC.
  pose proof (Lifetime_group_size _ Hlife P C HP HC) as H.
  split; [exact H|].
  intros <- <-. rewrite assign_id_explicit. cbn [fst].
  now rewrite make_id_flat, H.
Qed.

Lemma X17_witness :
  group_size (registry (assign_id (mk "v-ics-le" "VICS" "global_registry.json" ∅)
                          (item 1 ["rust"])).1.2)
             ("VICS" ++ "-" ++ "RUST") =
  _count_existing (assign_id (mk "v-ics-le" "VICS" "global_registry.json" ∅)
                     (item 1 ["rust"])).1.2 ("VICS" ++ "-" ++ "RUST") ∧
  (assign_id (assign_id (mk "v-ics-le" "VICS" "global_registry.json" ∅)
                (item 1 ["rust"])).1.2 (item 2 ["rust"])).1.1 =
  "VICS" ++ "-" ++ "RUST" ++ "-" ++
  format_03d (group_size (registry (assign_id (mk "v-ics-le" "VICS" "global_registry.json" ∅)
                                      (item 1 ["rust"])).1.2)
                         ("VICS" ++ "-" ++ "RUST") + 1).
Proof.
  destruct (X17_summary_agrees_with_numbering
              (assign_id (mk "v-ics-le" "VICS" "global_registry.json" ∅)
                 (item 1 ["rust"])).1.2 (item 2 ["rust"]) "VICS" "RUST") as [H1 H2].
  - apply Lifetime_assign; [exact Lifetime_new | reflexivity].
  - vm_compute. tauto.
  - vm_compute. tauto.
  - split; [exact H1|]. apply H2; reflexivity.
Defined.

Section Sentinel.


Lemma str_in_empty (s : string) : str_in "" s = true.
Proof. apply str_in_spec. now exists "", s. Qed.


Lemma table_codes_not_MISC (c : string) :
  In c (map snd PROJECT_CODES) ∨ In c (map snd COMPONENT_MAP) → c ≠ "MISC".
Proof.
  assert (H : forallb (λ c, negb (String.eqb c "MISC"))
                      (map snd PROJECT_CODES ++ map snd COMPONENT_MAP) = true)
    by (vm_compute; reflexivity).
  rewrite forallb_forall in H. intros Hin.
  apply in_or_app, H, negb_true_iff, String.eqb_neq in Hin. exact Hin.
Qed.

Lemma first_label_match_None_inv (labels : list string) :
  first_label_match labels = None →
  Forall (λ x, dict_get COMPONENT_MAP (strip (lower x)) = None) labels.
Proof.
  induction labels as [|l labels IH]; cbn [first_label_match]; [constructor|].
  destruct (dict_get COMPONENT_MAP (strip (lower l))) eqn:E; [discriminate|].
  intros H. constructor; auto.
Qed.

Lemma first_heuristic_MISC (text : string) :
  first_heuristic text = "MISC" ↔
  Forall (λ h, Forall (λ needle, str_in needle text = false) h.1) heuristics.
Proof.
  unfold first_heuristic. split.
  - destruct (find _ heuristics) as [h|] eqn:E.
    + apply find_some in E as [Hin _]. intros Hh. exfalso.
      assert (H : forallb (λ h : list string * string, negb (String.eqb h.2 "MISC"))
                          heuristics = true) by reflexivity.
      rewrite forallb_forall in H. apply H, negb_true_iff, String.eqb_neq in Hin.
      contradiction.
    + intros _. apply Forall_forall. intros h Hin. apply Forall_forall.
      intros needle Hn. apply list_elem_of_In in Hin, Hn.
      pose proof (find_none _ _ E h Hin) as Hnone. cbn beta in Hnone.
      destruct (str_in needle text) eqn:Es; [|reflexivity].
      assert (Hex : existsb (λ needle, str_in needle text) h.1 = true)
        by (apply existsb_exists; eauto).
      congruence.
  - intros Hh. destruct (find _ heuristics) as [h|] eqn:E; [exfalso | reflexivity].
    apply find_some in E as [Hin E].
    rewrite Forall_forall in Hh. apply list_elem_of_In, Hh in Hin.
    apply existsb_exists in E as (needle & Hn & E).
    rewrite Forall_forall in Hin. apply list_elem_of_In, Hin in Hn. congruence.
Qed.

Lemma assign_all_updatable (issues : list Issue.t) (self : t) (j : nat)
  (issue : Issue.t) :
  In (project_code self) project_codes → well_numbered (registry self) →
  issues !! j = Some issue →
  ∃ gid, (assign_all self issues).1 !! j = Some gid ∧
         registry (assign_all self issues).2 !! gid = Some (entry_of self issue gid).
Proof.
  intros HP Hwf Hj.
  destruct (assign_all_keeps issues self HP Hwf) as (_ & _ & H).
  destruct (H j issue Hj) as (gid & H1 & _ & H2). eauto.
Qed.


End Sentinel.



(** X19 (an empty name is never the sentinel). An identifier that is empty,
    or ends in a slash after any owner, leaves the empty name, which occurs
    in every key: the code is that of the first entry of the table,
    ["MODELICA"], and no warning is due. *)
Theorem X19_empty_name (owner : string) :
  _get_project_code "" = "MODELICA" ∧
  _get_project_code (owner ++ "/") = "MODELICA" ∧
  clean_name_of (owner ++ "/") = "".
Proof.
  assert (E : owner ++ "/" = owner ++ "/" ++ "") by reflexivity.
  split; [reflexivity|]. rewrite E. split.
  - rewrite project_code_owner; reflexivity.
  - now apply clean_name_of_owner.
Qed.

(** X20 (when the component code is the sentinel). [_get_component_code]
    returns ["MISC"] exactly when no label, lowercased and trimmed, is a key
    of the label table and none of the needles of the heuristics occurs in
    the labels joined by single spaces and lowercased. *)
Theorem X20_component_sentinel (labels : list string) :
  _get_component_code labels = "MISC" ↔
  Forall (λ x, dict_get COMPONENT_MAP (strip (lower x)) = None) labels ∧
  Forall (λ h, Forall (λ needle, str_in needle (lower (join " " labels)) = false) h.1)
         heuristics.
Proof.
  unfold _get_component_code. split.
  - destruct (first_label_match labels) as [code|] eqn:E.
    + intros ->. apply first_label_match_in in E.
      exfalso. now apply (table_codes_not_MISC "MISC"); [right|].
    + rewrite fallback_component_heuristics, first_heuristic_MISC.
      intros H. split; [now apply first_label_match_None_inv | exact H].
  - intros [Hl Hh]. rewrite (first_label_match_none labels Hl).
    now rewrite fallback_component_heuristics, first_heuristic_MISC.
Qed.

Lemma X20_witness : _get_component_code ["urgent"; "Help Wanted"] = "MISC".
Proof.
  refine (proj2 (X20_component_sentinel ["urgent"; "Help Wanted"]) _).
  split; repeat constructor.
Defined.

(** X21 (every assigned item can be updated). An assigner is constructed over
    the registry of a deletion-free lifetime and assigns a batch. For the
    item at any position, [update_github_number] with the identifier that item
    was given finds its record: it returns, the record then holds the remote
    number and is otherwise the record of that item, and the registry file
    holds the updated registry. *)
Theorem X21_assigned_items_can_be_updated
  (repo file : string) (env env1 env2 : Env) (self : t)
  (issues : list Issue.t) (j : nat) (issue : Issue.t) (v : Z) :
  __init__ repo file env = Returned (self, env1) →
  Lifetime (registry self) →
  issues !! j = Some issue →
  ∃ gid self' env',
    (assign_all self issues).1 !! j = Some gid ∧
    update_github_number (assign_all self issues).2 gid v env2 = Returned (self', env') ∧
    registry self' !! gid =
      Some (Entry.mk gid (_get_project_code repo) (component_of issue)
                     (Issue.number issue) repo (Some v) (Issue.title issue)
                     (Issue.labels issue) (Issue.milestone issue) "open") ∧
    files env' !! file = Some (Json (registry self')).
Proof.
  intros Hinit Hlife Hj.
  assert (Hf : registry_file self = file).
  { rewrite init_cases in Hinit.
    destruct (files env !! file) as [[r|]|]; inversion Hinit; reflexivity. }
  apply init_project_code in Hinit as [Hp Hr].
  destruct (assign_all_updatable issues self j issue) as (gid & Hg & Hrec); auto.
  { rewrite Hp. apply _get_project_code_in. }
  { now apply Lifetime_well_numbered. }
  destruct (assign_all_fields issues self) as (_ & _ & Hf').
  eexists gid, _, _. split; [exact Hg|]. split; [now apply update_present with (e := entry_of self issue gid)|].
  cbn [registry set_registry files]. split.
  - rewrite lookup_insert_eq. unfold entry_of, Entry.set_github_number. cbn.
    now rewrite Hp, Hr.
  - now rewrite Hf', Hf, lookup_insert_eq.
Qed.

Lemma X21_witness :
  ∃ gid self' env',
    (assign_all (mk "v-ics-le" "VICS" "global_registry.json" ∅)
                [item 1 ["rust"]; item 2 ["tcp"]]).1 !! 1 = Some gid ∧
    update_github_number
      (assign_all (mk "v-ics-le" "VICS" "global_registry.json" ∅)
                  [item 1 ["rust"]; item 2 ["tcp"]]).2 gid 77 empty_env
      = Returned (self', env') ∧
    Entry.github_number <$> registry self' !! gid = Some (Some 77%Z).
Proof.
  destruct (X21_assigned_items_can_be_updated "v-ics-le" "global_registry.json"
              empty_env empty_env empty_env (mk "v-ics-le" "VICS" "global_registry.json" ∅)
              [item 1 ["rust"]; item 2 ["tcp"]] 1 (item 2 ["tcp"]) 77)
    as (gid & self' & env' & H1 & H2 & H3 & _).
  - reflexivity.
  - exact Lifetime_new.
  - reflexivity.
  - exists gid, self', env'. split; [exact H1|]. split; [exact H2|]. now rewrite H3.
Defined.

Example summary_sample :
  match __init__ "v-ics-le" "global_registry.json" empty_env with
  | Returned (self, env) =>
      match (show_summary
               (assign_all self [item 1 ["tcp"]; item 2 ["rust"]; item 3 ["tcp"];
                                 item 4 []]).2 env) with
      | Returned (_, env') => stdout env'
      | Raised _ => []
      end
  | Raised _ => []
  end = [String "010" "Global ID Summary:"; str_mul "=" 60; "VICS-MISC: 1 issues";
         "VICS-NET: 2 issues"; "VICS-RUST: 1 issues"; str_mul "=" 60].
Proof. vm_compute. reflexivity. Qed.
